(** * vscode-clangd: path-prefix remapping and the mapping-file watcher

    A shallow embedding of [src/clangd-context.ts] (the prefix trie held in
    [ClangdContext.completionPrefixMap], its loader
    [updateCompletionPrefixMap], the lookup
    [getPrefixPathAndReplacePathWithPath] and the two response-rewriting
    middlewares) and of [src/custom-file-watcher.ts] (the [CustomFileWatcher]
    class: watcher creation, debouncing and the change handler).

    JavaScript objects that the code mutates in place are threaded through
    the functions as explicit state; the platform (file system, timers,
    file-system watchers, settings) is explicit data as well. *)

From stdpp Require Import gmap strings list fin_maps.
From Stdlib Require Import ZArith Ascii String Lia.

Set Warnings "-register-all".
Set Default Proof Using "Type".
Open Scope string_scope.
Open Scope list_scope.
Open Scope Z_scope.

(** ** JavaScript string primitives used by the code *)

Module JS.

(** [s.split(sep)] for a one-character separator: the result is never the
    empty array; the empty string splits into one component, itself. *)
Fixpoint split (sep : ascii) (s : string) : list string :=
  match s with
  | EmptyString => [EmptyString]
  | String c s' =>
      if Ascii.eqb c sep then EmptyString :: split sep s'
      else match split sep s' with
           | seg :: segs => String c seg :: segs
           | [] => [String c EmptyString]
           end
  end.

(** [arr.join(sep)]. *)
Fixpoint join (sep : string) (segs : list string) : string :=
  match segs with
  | [] => EmptyString
  | [seg] => seg
  | seg :: rest => seg +:+ sep +:+ join sep rest
  end.

(** [s.startsWith(pat)] *)
Fixpoint startsWith (pat s : string) : bool :=
  match pat, s with
  | EmptyString, _ => true
  | String _ _, EmptyString => false
  | String a pat', String b s' => Ascii.eqb a b && startsWith pat' s'
  end.

Fixpoint dropChars (n : nat) (s : string) : string :=
  match n, s with
  | O, _ => s
  | S _, EmptyString => EmptyString
  | S n', String _ s' => dropChars n' s'
  end.

(** The first occurrence of [pat] in [s], as the text before it and the
    text after it ([s.indexOf(pat)] and the two slices around the match). *)
Fixpoint findFirst (pat s : string) : option (string * string) :=
  if startsWith pat s then Some (EmptyString, dropChars (String.length pat) s)
  else match s with
       | EmptyString => None
       | String c s' =>
           match findFirst pat s' with
           | Some (before, after) => Some (String c before, after)
           | None => None
           end
       end.

(** ECMAScript GetSubstitution for a string pattern (no capture groups):
    in the replacement text, [$$] stands for a dollar sign, [$&] for the
    matched text, [$`] for the text before the match and [$'] for the text
    after it; any other dollar sign is kept as it is. *)
Fixpoint getSubstitution (matched before after replacement : string) : string :=
  match replacement with
  | EmptyString => EmptyString
  | String c tl =>
      if Ascii.eqb c "$" then
        match tl with
        | EmptyString => String c EmptyString
        | String d rest =>
            if Ascii.eqb d "$" then String "$" (getSubstitution matched before after rest)
            else if Ascii.eqb d "&" then matched +:+ getSubstitution matched before after rest
            else if Ascii.eqb d "`" then before +:+ getSubstitution matched before after rest
            else if Ascii.eqb d "'" then after +:+ getSubstitution matched before after rest
            else String c (getSubstitution matched before after tl)
        end
      else String c (getSubstitution matched before after tl)
  end.

(** [s.replace(pat, replacement)] with a string pattern: only the first
    occurrence is replaced; without an occurrence [s] is returned. *)
Definition replace (s pat replacement : string) : string :=
  match findFirst pat s with
  | None => s
  | Some (before, after) =>
      before +:+ getSubstitution pat before after replacement +:+ after
  end.

(** Truthiness of a [string | undefined]: [undefined] and the empty string
    are falsy. *)
Definition truthy (v : option string) : bool :=
  match v with
  | Some (String _ _) => true
  | _ => false
  end.

End JS.

(** ** The prefix trie *)

(** [class trieNode { next: Map<string, trieNode>; value: string | undefined }] *)
Inductive trieNode : Type :=
  TrieNode (value : option string) (next : gmap string trieNode).

Definition value (node : trieNode) : option string :=
  match node with TrieNode v _ => v end.

Definition next (node : trieNode) : gmap string trieNode :=
  match node with TrieNode _ m => m end.

(** [new trieNode(undefined)] *)
Definition newTrieNode : trieNode := TrieNode None ∅.

(** The inner loop of [updateCompletionPrefixMap] followed by
    [node.value = replacePath]: descend along the components, creating the
    missing children, and set the value of the node reached.  The update is
    in place in the source; here the updated root is returned. *)
Fixpoint insertComponents (components : list string) (replacePath : string)
    (node : trieNode) : trieNode :=
  match components with
  | [] => TrieNode (Some replacePath) (next node)
  | component :: rest =>
      let child := default newTrieNode (next node !! component) in
      TrieNode (value node)
               (<[component := insertComponents rest replacePath child]> (next node))
  end.

(** One iteration of [for (const key in completionPrefixMap)]. *)
Definition insertEntry (root : trieNode) (entry : string * string) : trieNode :=
  insertComponents (JS.split "/" entry.1) entry.2 root.

(** The whole [for ... in] loop over the parsed document. *)
Definition insertEntries (document : list (string * string)) (root : trieNode) : trieNode :=
  foldl insertEntry root document.

(** The loop of [getPrefixPathAndReplacePathWithPath]: a component that is a
    child of the current node is pushed and followed; any other component
    is passed over and the loop goes on with the next one (the loop body has
    no [break]). *)
Fixpoint walk (components : list string) (node : trieNode)
    (prefixPathComponentArray : list string) : list string * trieNode :=
  match components with
  | [] => (prefixPathComponentArray, node)
  | component :: rest =>
      match next node !! component with
      | Some child => walk rest child (prefixPathComponentArray ++ [component])
      | None => walk rest node prefixPathComponentArray
      end
  end.

Definition getPrefixPathAndReplacePathWithPath (root : trieNode) (filePath : string)
    : option (string * string) :=
  let '(prefixPathComponentArray, node) := walk (JS.split "/" filePath) root [] in
  let prefixPath := JS.join "/" prefixPathComponentArray in
  match value node with
  | Some v => if JS.truthy (Some v) then Some (prefixPath, v) else None
  | None => None
  end.

(** Reading the trie along a component sequence (used to state results). *)
Fixpoint descend (components : list string) (node : trieNode) : option trieNode :=
  match components with
  | [] => Some node
  | component :: rest =>
      match next node !! component with
      | Some child => descend rest child
      | None => None
      end
  end.

Definition valueAt (components : list string) (root : trieNode) : option string :=
  match descend components root with
  | Some node => value node
  | None => None
  end.

(** ** The platform: errors, the file system, URIs *)

Inductive Error : Type :=
| ENOENT         (* fs.realpathSync / fs.readFileSync on a path that does not exist *)
| EISDIR         (* fs.readFileSync on something that is not a readable file *)
| SyntaxError    (* JSON.parse on text that is not JSON *)
| FileNotFound.  (* vscode.workspace.fs.stat on a URI that does not exist *)

(** The outcome of a call: a returned value or a thrown error (for an
    [async] function: the promise resolved or rejected). *)
Inductive Completion (A : Type) : Type :=
| Return (a : A)
| Throw (e : Error).
Arguments Return {A} a.
Arguments Throw {A} e.

Definition bind {A B : Type} (c : Completion A) (k : A -> Completion B) : Completion B :=
  match c with
  | Return a => k a
  | Throw e => Throw e
  end.

#[global] Instance Completion_ret : MRet Completion := @Return.
#[global] Instance Completion_bind : MBind Completion := fun A B k c => bind c k.

(** [items.map(f)] where [f] may throw: the first throw ends the call. *)
Fixpoint mapThrowing {A B : Type} (f : A -> Completion B) (items : list A)
    : Completion (list B) :=
  match items with
  | [] => Return []
  | item :: rest =>
      item' ← f item;
      rest' ← mapThrowing f rest;
      Return (item' :: rest')
  end.

(** What the disk holds at one path: the canonical (symlink-free) form of
    the path, the text of the file when it can be read as one, and the size
    that [stat] reports. *)
Record FileInfo : Type := {
  realpath : string;
  content : option string;
  statSize : Z
}.

(** A disk maps the paths that exist to their [FileInfo]. *)
Definition existsSync (disk : gmap string FileInfo) (path : string) : bool :=
  match disk !! path with
  | Some _ => true
  | None => false
  end.

Definition realpathSync (disk : gmap string FileInfo) (path : string) : Completion string :=
  match disk !! path with
  | Some info => Return (realpath info)
  | None => Throw ENOENT
  end.

Definition readFileSync (disk : gmap string FileInfo) (path : string) : Completion string :=
  match disk !! path with
  | Some info =>
      match content info with
      | Some text => Return text
      | None => Throw EISDIR
      end
  | None => Throw ENOENT
  end.

(** [(await vscode.workspace.fs.stat(uri)).size]; the URI is identified
    with the path of the file. *)
Definition stat (disk : gmap string FileInfo) (uri : string) : Completion Z :=
  match disk !! uri with
  | Some info => Return (statSize info)
  | None => Throw FileNotFound
  end.

Record Uri : Type := {
  scheme : string;
  path : string
}.

(** [uri.with({ path: newPath })] *)
Definition withPath (uri : Uri) (newPath : string) : Uri :=
  {| scheme := scheme uri; path := newPath |}.

(** ** ClangdContext *)

Inductive FileEventKind : Type := Changed | Created.

(** The disposables pushed on [context.subscriptions]. *)
Inductive Disposable : Type :=
| WatcherDisposable (watcher : nat)
| ListenerDisposable (watcher : nat) (kind : FileEventKind)
| WorkspaceFoldersListener.

Record ClangdContext : Type := {
  subscriptions : list Disposable;
  completionPrefixMap : trieNode;
  completionPrefixMapPath : string
}.

(** The field initialisers of the class. *)
Definition newClangdContext : ClangdContext :=
  {| subscriptions := [];
     completionPrefixMap := newTrieNode;
     completionPrefixMapPath := EmptyString |}.

Definition setCompletionPrefixMap (context : ClangdContext) (root : trieNode) : ClangdContext :=
  {| subscriptions := subscriptions context;
     completionPrefixMap := root;
     completionPrefixMapPath := completionPrefixMapPath context |}.

Definition pushSubscriptions (context : ClangdContext) (ds : list Disposable) : ClangdContext :=
  {| subscriptions := subscriptions context ++ ds;
     completionPrefixMap := completionPrefixMap context;
     completionPrefixMapPath := completionPrefixMapPath context |}.

Definition mappingFilePath (context : ClangdContext) : string :=
  completionPrefixMapPath context +:+ "/completion_prefix_map.json".

Section Loader.

(** [JSON.parse] on the text of a mapping document: [None] when the text
    is not JSON (the call throws a SyntaxError), otherwise the entries
    that [for (const key in ...)] enumerates, in that order.  Documents
    are of the shape string -> string. *)
Variable JSON_parse : string -> option (list (string * string)).

(** [updateCompletionPrefixMap]: the outcome of the call and the context
    it leaves behind.  The entries are inserted into the trie the context
    already holds. *)
Definition updateCompletionPrefixMap (disk : gmap string FileInfo) (context : ClangdContext)
    : Completion unit * ClangdContext :=
  let completionPrefixMapPath := mappingFilePath context in
  if existsSync disk completionPrefixMapPath then
    match readFileSync disk completionPrefixMapPath with
    | Throw e => (Throw e, context)
    | Return text =>
        match JSON_parse text with
        | None => (Throw SyntaxError, context)
        | Some document =>
            (Return tt,
             setCompletionPrefixMap context
               (insertEntries document (completionPrefixMap context)))
        end
    end
  else (Return tt, context).

End Loader.

(** ** The response-rewriting middlewares *)

(** The block that both middlewares run on the path of an item (lines
    149-157 and 171-179): the path the item carries afterwards. *)
Definition resolve (disk : gmap string FileInfo) (root : trieNode) (itemPath : string)
    : Completion string :=
  filePath ← realpathSync disk itemPath;
  match getPrefixPathAndReplacePathWithPath root filePath with
  | Some (prefixPath, replacePath) =>
      let resolvePath := JS.replace filePath prefixPath replacePath in
      if existsSync disk resolvePath then Return resolvePath else Return itemPath
  | None => Return itemPath
  end.

Record Location : Type := {
  uri : Uri;
  range : nat
}.

Record LocationLink : Type := {
  targetUri : Uri;
  targetRange : nat
}.

Record DocumentLink : Type := {
  linkRange : nat;
  target : option Uri
}.

(** What the wrapped [provideDefinition] hands back:
    [Location | Location[] | LocationLink[] | undefined]. *)
Inductive DefinitionResult : Type :=
| NoDefinition
| SingleLocation (item : Location)
| Locations (items : list Location)
| LocationLinks (items : list LocationLink).

Definition remapLocation (disk : gmap string FileInfo) (root : trieNode) (item : Location)
    : Completion Location :=
  newPath ← resolve disk root (path (uri item));
  Return {| uri := withPath (uri item) newPath; range := range item |}.

(** The [provideDefinition] middleware, applied to the result of the
    wrapped provider: of a non-empty array of locations only [list[0]] is
    looked at, and that item alone is returned. *)
Definition provideDefinition (disk : gmap string FileInfo) (root : trieNode)
    (result : DefinitionResult) : Completion DefinitionResult :=
  match result with
  | Locations (item :: _) =>
      item' ← remapLocation disk root item;
      Return (SingleLocation item')
  | _ => Return result
  end.

Definition remapDocumentLink (disk : gmap string FileInfo) (root : trieNode)
    (item : DocumentLink) : Completion DocumentLink :=
  match target item with
  | Some targetUri =>
      newPath ← resolve disk root (path targetUri);
      Return {| linkRange := linkRange item; target := Some (withPath targetUri newPath) |}
  | None => Return item
  end.

(** The [provideDocumentLinks] middleware; [None] is [undefined]/[null]. *)
Definition provideDocumentLinks (disk : gmap string FileInfo) (root : trieNode)
    (result : option (list DocumentLink)) : Completion (option (list DocumentLink)) :=
  match result with
  | Some (item :: rest) =>
      items' ← mapThrowing (remapDocumentLink disk root) (item :: rest);
      Return (Some items')
  | _ => Return result
  end.

(** The substitution as the specification words it: the first occurrence of
    the matched prefix gives way to the replacement value, taken as it is. *)
Definition substituteFirst (s matchedPrefix replacement : string) : string :=
  match JS.findFirst matchedPrefix s with
  | None => s
  | Some (before, after) => before +:+ replacement +:+ after
  end.

Fixpoint dollarFree (s : string) : bool :=
  match s with
  | EmptyString => true
  | String c s' => negb (Ascii.eqb c "$") && dollarFree s'
  end.

(** ** CustomFileWatcher *)

(** The settings and the disk as they are at one moment. *)
Record World : Type := {
  disk : gmap string FileInfo;
  onConfigChanged : option string   (* config.get<string>('onConfigChanged') *)
}.

(** What a run leaves in its trace. *)
Inductive Effect : Type :=
| TimerFired (time : Z) (uri : string)
| StatCall (uri : string)
| PolicyDispatch (policy : option string)
| ReloadCall
| UnhandledRejection (e : Error).

(** The only listener the class ever attaches. *)
Inductive Handler : Type := DebouncedHandleConfigFilesChanged.

(** A [vscode.FileSystemWatcher], as the editor holds it. *)
Record FileSystemWatcher : Type := {
  globPattern : string;
  disposed : bool;
  onDidChange : list Handler;
  onDidCreate : list Handler
}.

(** A timer armed with [setTimeout]; the closure it runs is determined by
    the URI it captured. *)
Record Timer : Type := {
  timerId : nat;
  deadline : Z;
  timerUri : string
}.

(** The object of class [CustomFileWatcher] together with what it reaches:
    its two private fields (as handles), the context, the watchers and the
    timers of the host, and the trace. *)
Record System : Type := {
  clangdContext : ClangdContext;
  fileWatcher : option nat;
  debounceTimer : option nat;
  watchers : list FileSystemWatcher;
  timers : list Timer;
  nextTimerId : nat;
  trace : list Effect
}.

Definition disposeWatcher (w : FileSystemWatcher) : FileSystemWatcher :=
  {| globPattern := globPattern w; disposed := true;
     onDidChange := onDidChange w; onDidCreate := onDidCreate w |}.

(** [createFileSystemWatcher()] *)
Definition createFileSystemWatcher (disk : gmap string FileInfo) (sys : System) : System :=
  let watchers1 :=
    match fileWatcher sys with
    | Some w => alter disposeWatcher w (watchers sys)
    | None => watchers sys
    end in
  let completionPrefixMapPath := mappingFilePath (clangdContext sys) in
  if existsSync disk completionPrefixMapPath then
    let w := List.length watchers1 in
    {| clangdContext :=
         pushSubscriptions (clangdContext sys)
           [ListenerDisposable w Changed; ListenerDisposable w Created; WatcherDisposable w];
       fileWatcher := Some w;
       debounceTimer := debounceTimer sys;
       watchers := watchers1 ++
         [{| globPattern := completionPrefixMapPath; disposed := false;
             onDidChange := [DebouncedHandleConfigFilesChanged];
             onDidCreate := [DebouncedHandleConfigFilesChanged] |}];
       timers := timers sys;
       nextTimerId := nextTimerId sys;
       trace := trace sys |}
  else
    {| clangdContext := clangdContext sys;
       fileWatcher := fileWatcher sys;
       debounceTimer := debounceTimer sys;
       watchers := watchers1;
       timers := timers sys;
       nextTimerId := nextTimerId sys;
       trace := trace sys |}.

(** [new CustomFileWatcher(context)] in a host that holds no watcher and no
    timer yet. *)
Definition newCustomFileWatcher (disk : gmap string FileInfo) (context : ClangdContext) : System :=
  let sys := createFileSystemWatcher disk
    {| clangdContext := context; fileWatcher := None; debounceTimer := None;
       watchers := []; timers := []; nextTimerId := O; trace := [] |} in
  {| clangdContext := pushSubscriptions (clangdContext sys) [WorkspaceFoldersListener];
     fileWatcher := fileWatcher sys;
     debounceTimer := debounceTimer sys;
     watchers := watchers sys;
     timers := timers sys;
     nextTimerId := nextTimerId sys;
     trace := trace sys |}.

(** One [onDidChangeWorkspaceFolders] event per disk of the list, each
    handled with the disk as it is at that moment. *)
Definition workspaceFoldersChanged (sys : System) (disks : list (gmap string FileInfo)) : System :=
  foldl (fun s d => createFileSystemWatcher d s) sys disks.

Definition activeWatchers (sys : System) : list FileSystemWatcher :=
  filter (fun w => disposed w = false) (watchers sys).

(** The listeners that the host calls for a file event of the given kind on
    the given path: those of the watchers that are not disposed and watch
    that path (the pattern is the plain path of the mapping file). *)
Definition listenersFor (kind : FileEventKind) (filePath : string) (sys : System)
    : list Handler :=
  flat_map
    (fun w =>
       if String.eqb (globPattern w) filePath then
         match kind with
         | Changed => onDidChange w
         | Created => onDidCreate w
         end
       else [])
    (activeWatchers sys).

Definition clearTimeout (handle : nat) (ts : list Timer) : list Timer :=
  filter (fun t => timerId t ≠ handle) ts.

(** [debouncedHandleConfigFilesChanged(uri)] called at time [now]. *)
Definition debouncedHandleConfigFilesChanged (now : Z) (uri : string) (sys : System) : System :=
  let timers1 :=
    match debounceTimer sys with
    | Some handle => clearTimeout handle (timers sys)
    | None => timers sys
    end in
  let handle := nextTimerId sys in
  {| clangdContext := clangdContext sys;
     fileWatcher := fileWatcher sys;
     debounceTimer := Some handle;
     watchers := watchers sys;
     timers := timers1 ++ [{| timerId := handle; deadline := now + 2000; timerUri := uri |}];
     nextTimerId := S handle;
     trace := trace sys |}.

(** The strict comparison of a [switch] on a [string | undefined] with a
    [case] label. *)
Definition caseIs (scrutinee : option string) (label : string) : bool :=
  match scrutinee with
  | Some s => String.eqb s label
  | None => false
  end.

Section Controller.

Variable JSON_parse : string -> option (list (string * string)).

(** [handleConfigFilesChanged(uri)]: the outcome, the context afterwards
    and the calls made on the way. *)
Definition handleConfigFilesChanged (world : World) (uri : string) (context : ClangdContext)
    : Completion unit * ClangdContext * list Effect :=
  match stat (disk world) uri with
  | Throw e => (Throw e, context, [StatCall uri])
  | Return size =>
      if size <=? 0 then (Return tt, context, [StatCall uri])
      else
        let policy := onConfigChanged world in
        if caseIs policy "restart" then
          (Return tt, context, [StatCall uri; PolicyDispatch policy])
        else if caseIs policy "ignore" then
          (Return tt, context, [StatCall uri; PolicyDispatch policy])
        else (* case 'prompt': default: *)
          let '(outcome, context') :=
            updateCompletionPrefixMap JSON_parse (disk world) context in
          (outcome, context', [StatCall uri; PolicyDispatch policy; ReloadCall])
  end.

(** The closure given to [setTimeout]: the handler, and after it returns
    [this.debounceTimer = undefined]; when the handler throws, the
    assignment is not reached and the rejection stays unhandled. *)
Definition timerCallback (world : World) (uri : string) (sys : System) : System :=
  let '(outcome, context', effects) :=
    handleConfigFilesChanged world uri (clangdContext sys) in
  {| clangdContext := context';
     fileWatcher := fileWatcher sys;
     debounceTimer :=
       match outcome with
       | Return _ => None
       | Throw _ => debounceTimer sys
       end;
     watchers := watchers sys;
     timers := timers sys;
     nextTimerId := nextTimerId sys;
     trace := trace sys ++ effects ++
       match outcome with
       | Return _ => []
       | Throw e => [UnhandledRejection e]
       end |}.

(** The host runs a timer that is due: the timer leaves the queue, then
    its closure runs in the world of that moment. *)
Definition fire (world : Z -> World) (sys : System) (t : Timer) : System :=
  timerCallback (world (deadline t)) (timerUri t)
    {| clangdContext := clangdContext sys;
       fileWatcher := fileWatcher sys;
       debounceTimer := debounceTimer sys;
       watchers := watchers sys;
       timers := clearTimeout (timerId t) (timers sys);
       nextTimerId := nextTimerId sys;
       trace := trace sys ++ [TimerFired (deadline t) (timerUri t)] |}.

(** Time moves on to [now]: the timers whose deadline has been reached
    run, in the order they were armed (every timer has the same delay, so
    this is the order of their deadlines). *)
Definition advance (world : Z -> World) (now : Z) (sys : System) : System :=
  foldl (fire world) sys (filter (fun t => deadline t ≤ now) (timers sys)).

(** A file-system notification is delivered at time [event.1] for the URI
    [event.2], after the timers that were due by then. *)
Definition notify (world : Z -> World) (sys : System) (event : Z * string) : System :=
  debouncedHandleConfigFilesChanged event.1 event.2 (advance world event.1 sys).

Definition run (world : Z -> World) (events : list (Z * string)) (sys : System) : System :=
  foldl (notify world) sys events.

End Controller.

Definition timerFirings (effects : list Effect) : list (Z * string) :=
  flat_map (fun e => match e with TimerFired t u => [(t, u)] | _ => [] end) effects.

Definition isReloadCall (e : Effect) : bool :=
  match e with
  | ReloadCall => true
  | _ => false
  end.

Definition reloadCalls (effects : list Effect) : nat :=
  List.length (List.filter isReloadCall effects).


(** Every armed timer is the one [debounceTimer] refers to. *)
Definition tracked (sys : System) : Prop :=
  match timers sys with
  | [] => True
  | [t] => debounceTimer sys = Some (timerId t)
  | _ => False
  end.

(** ** Auxiliary notions used in the statements *)

(** A component holds no separator. *)
Fixpoint slashFree (s : string) : bool :=
  match s with
  | EmptyString => true
  | String c s' => negb (Ascii.eqb c "/") && slashFree s'
  end.

(** The value a component sequence carries once the entries of a document
    have been inserted over an earlier value [before]: the value of the
    last entry whose key splits into that sequence, or else [before]. *)
Definition valueAfter (components : list string) (document : list (string * string))
    (before : option string) : option string :=
  foldl (fun acc entry =>
           if decide (JS.split "/" entry.1 = components) then Some entry.2 else acc)
        before document.

Definition timerFor (handle : nat) (due : Z) (u : string) : Timer :=
  {| timerId := handle; deadline := due; timerUri := u |}.

(** Every watcher that is not disposed is the one [fileWatcher] refers to. *)
Definition soleWatcher (sys : System) : Prop :=
  ∀ i w, watchers sys !! i = Some w → disposed w = false → fileWatcher sys = Some i.

(** The watcher that [createFileSystemWatcher] sets up for a path. *)
Definition watcherOn (filePath : string) : FileSystemWatcher :=
  {| globPattern := filePath; disposed := false;
     onDidChange := [DebouncedHandleConfigFilesChanged];
     onDidCreate := [DebouncedHandleConfigFilesChanged] |}.

(** The disk at the latest of the start-up and the folder-change events. *)
Definition latestDisk (disk0 : gmap string FileInfo) (disks : list (gmap string FileInfo))
    : gmap string FileInfo :=
  default disk0 (last disks).

(** Exactly one timer is armed, [debounceTimer] refers to it, and it is due
    2000 ms after the event, for the URI of the event. *)
Definition armedFor (sys : System) (event : Z * string) : Prop :=
  ∃ handle, timers sys = [timerFor handle (event.1 + 2000) event.2]
            ∧ debounceTimer sys = Some handle.

(** ** Sample data *)

(** The mapping of the specification's scenarios,
    [{ "/sandbox/src": "/home/dev/project" }], as parsed. *)
Definition scenarioDocument : list (string * string) :=
  [("/sandbox/src", "/home/dev/project")].

Definition scenarioTrie : trieNode := insertEntries scenarioDocument newTrieNode.

(** A mapping whose replacement value holds a dollar pattern. *)
Definition dollarTrie : trieNode :=
  insertEntries [("/sandbox/src", "/home/$$dev")] newTrieNode.

(** Two keys of which neither is a prefix of the other. *)
Definition siblingsDocument : list (string * string) :=
  [("/sandbox/src", "/home/dev/project"); ("/sandbox/out", "/home/dev/build")].

(** The document that maps the second key alone. *)
Definition outDocument : list (string * string) :=
  [("/sandbox/out", "/home/dev/build")].

Definition dquote : string := String "034"%char EmptyString.

(** The JSON text of an object with one string member. *)
Definition jsonObject1 (key val : string) : string :=
  "{" +:+ dquote +:+ key +:+ dquote +:+ ":" +:+ dquote +:+ val +:+ dquote +:+ "}".

(** [JSON.parse] on the texts that the examples use. *)
Definition sampleParse (text : string) : option (list (string * string)) :=
  if String.eqb text (jsonObject1 "/sandbox/src" "/home/dev/project")
  then Some scenarioDocument
  else if String.eqb text (jsonObject1 "/sandbox/out" "/home/dev/build")
  then Some outDocument
  else if String.eqb text "{}" then Some []
  else None.

Definition regularFile (canonical text : string) : FileInfo :=
  {| realpath := canonical; content := Some text;
     statSize := Z.of_nat (String.length text) |}.

Definition sampleContext (root : trieNode) : ClangdContext :=
  {| subscriptions := [];
     completionPrefixMap := root;
     completionPrefixMapPath := "/home/dev/.storage" |}.

(** A disk that holds the mapping file of [sampleContext] with the given
    text, and nothing else. *)
Definition diskWithMapping (text : string) : gmap string FileInfo :=
  {[ "/home/dev/.storage/completion_prefix_map.json" :=
       regularFile "/home/dev/.storage/completion_prefix_map.json" text ]}.

(** A disk on which every listed path is a regular, empty file that is its
    own canonical form. *)
Definition diskOf (paths : list string) : gmap string FileInfo :=
  list_to_map (map (fun p => (p, regularFile p EmptyString)) paths).

Definition fileUri (p : string) : Uri := {| scheme := "file"; path := p |}.

Definition locationAt (p : string) : Location := {| uri := fileUri p; range := O |}.

Definition linkTo (p : string) : DocumentLink :=
  {| linkRange := O; target := Some (fileUri p) |}.

Definition worldOf (d : gmap string FileInfo) (policy : option string) : World :=
  {| disk := d; onConfigChanged := policy |}.

(** A watcher object in a host without watchers and timers. *)
Definition idleSystem (context : ClangdContext) : System :=
  {| clangdContext := context; fileWatcher := None; debounceTimer := None;
     watchers := []; timers := []; nextTimerId := O; trace := [] |}.

(** Scenario D of the specification: two notifications 100 ms apart. *)
Definition scenarioDEvents : list (Z * string) :=
  [(0, "/home/dev/.storage/completion_prefix_map.json");
   (100, "/home/dev/.storage/completion_prefix_map.json")].

Definition scenarioDWorld (_ : Z) : World :=
  worldOf (diskWithMapping (jsonObject1 "/sandbox/out" "/home/dev/build")) (Some "prompt").

(** ** More of the two files *)

(** [dispose()] of the [CustomFileWatcher] (lines 29-32): the file-system
    watcher is disposed, if there is one; nothing else is touched. *)
Definition dispose (sys : System) : System :=
  {| clangdContext := clangdContext sys;
     fileWatcher := fileWatcher sys;
     debounceTimer := debounceTimer sys;
     watchers :=
       match fileWatcher sys with
       | Some w => alter disposeWatcher w (watchers sys)
       | None => watchers sys
       end;
     timers := timers sys;
     nextTimerId := nextTimerId sys;
     trace := trace sys |}.

(** The first part of a firing: the timer leaves the queue and its closure
    runs up to [await vscode.workspace.fs.stat(uri)], where it is suspended.
    The rest of the closure is [timerCallback], run when [stat] has
    answered; other callbacks can run in between. *)
Definition fireBegin (sys : System) (t : Timer) : System :=
  {| clangdContext := clangdContext sys;
     fileWatcher := fileWatcher sys;
     debounceTimer := debounceTimer sys;
     watchers := watchers sys;
     timers := clearTimeout (timerId t) (timers sys);
     nextTimerId := nextTimerId sys;
     trace := trace sys ++ [TimerFired (deadline t) (timerUri t)] |}.

(** Successive notifications more than the debounce delay apart. *)
Fixpoint spacedFrom (t : Z) (events : list (Z * string)) : Prop :=
  match events with
  | [] => True
  | event :: rest => t + 2000 < event.1 ∧ spacedFrom event.1 rest
  end.

(** How many of the disks hold the given path. *)
Definition countExisting (filePath : string) (disks : list (gmap string FileInfo)) : nat :=
  List.length (List.filter (fun d => existsSync d filePath) disks).

(** [s.includes(pat)] *)
Definition includes (s pat : string) : bool :=
  match JS.findFirst pat s with
  | Some _ => true
  | None => false
  end.

(** A [vscode.SymbolInformation]. *)
Record SymbolInformation : Type := {
  name : string;
  containerName : string;
  kind : nat;
  location : Location
}.

(** The body of the [map] callback of [provideWorkspaceSymbols]. *)
Definition qualifySymbol (query : string) (symbol : SymbolInformation) : SymbolInformation :=
  if includes query "::" then
    {| name := if JS.truthy (Some (containerName symbol))
               then containerName symbol +:+ "::" +:+ name symbol
               else name symbol;
       containerName := EmptyString;
       kind := kind symbol;
       location := location symbol |}
  else symbol.

(** The [provideWorkspaceSymbols] middleware, applied to the result of the
    wrapped provider; [None] is [undefined]/[null] ([symbols?.map]). *)
Definition provideWorkspaceSymbols (query : string)
    (symbols : option (list SymbolInformation)) : option (list SymbolInformation) :=
  match symbols with
  | Some items => Some (map (qualifySymbol query) items)
  | None => None
  end.

(** Two notifications three seconds apart. *)
Definition spacedEvents : list (Z * string) :=
  [(0, "/home/dev/.storage/completion_prefix_map.json");
   (3000, "/home/dev/.storage/completion_prefix_map.json")].

(** A world whose mapping file holds text that is not JSON. *)
Definition malformedWorld (_ : Z) : World :=
  worldOf (diskWithMapping "{") (Some "prompt").

(** A world with the [restart] policy. *)
Definition restartWorld (_ : Z) : World :=
  worldOf (diskWithMapping (jsonObject1 "/sandbox/out" "/home/dev/build")) (Some "restart").

(** A watcher object with one timer armed by a notification at time 0. *)
Definition armedSystem : System :=
  debouncedHandleConfigFilesChanged 0 "/home/dev/.storage/completion_prefix_map.json"
    (idleSystem (sampleContext scenarioTrie)).

(** ** The completion middleware *)

(** The dot of a regular expression without the [s] flag matches every code
    unit but a line terminator; among 8-bit code units these are LF and
    CR. *)
Definition isLineTerminator (c : ascii) : bool :=
  Ascii.eqb c "010" || Ascii.eqb c "013".

(** The tail [.*?\)] of the pattern: the shortest run of dot characters
    that is followed by a closing parenthesis. *)
Fixpoint matchLazyToClose (s : string) : bool :=
  match s with
  | EmptyString => false
  | String c s' =>
      if Ascii.eqb c ")" then true
      else if isLineTerminator c then false
      else matchLazyToClose s'
  end.

(** The part [.*?\))\(.*?\)] of the pattern, tried after [:(] has been
    matched and [acc] has been taken by the first lazy run: the run is
    extended one dot character at a time until the rest of the pattern
    matches; the result is the text of group 1. *)
Fixpoint matchGroup (acc s : string) : option string :=
  match s with
  | EmptyString => None
  | String c s' =>
      if Ascii.eqb c ")"
         && match s' with
            | String d rest => Ascii.eqb d "(" && matchLazyToClose rest
            | EmptyString => false
            end
      then Some ("(" +:+ acc +:+ ")")
      else if isLineTerminator c then None
      else matchGroup (acc +:+ String c EmptyString) s'
  end.

(** The pattern [/:(\(.*?\))\(.*?\)/] tried at the start of [s]. *)
Definition matchHere (s : string) : option string :=
  match s with
  | String c (String d rest) =>
      if Ascii.eqb c ":" && Ascii.eqb d "(" then matchGroup EmptyString rest else None
  | _ => None
  end.

(** [pattern.exec(s)]: the leftmost match; [Some g] is a match with
    [returnValue[1] = g], [None] is [null]. *)
Fixpoint execGroup1 (s : string) : option string :=
  match matchHere s with
  | Some g => Some g
  | None =>
      match s with
      | EmptyString => None
      | String _ s' => execGroup1 s'
      end
  end.

(** What the middleware leaves in [insertText.value] of a snippet. *)
Definition rewriteSnippet (v : string) : string :=
  match execGroup1 v with
  | Some g => g +:+ JS.replace v g EmptyString
  | None => v
  end.

Record Position : Type := {
  line : nat;
  character : nat
}.

(** [item.range]: absent, a [vscode.Range], or an object with an inserting
    and a replacing range. *)
Inductive ItemRange : Type :=
| NoRange
| PlainRange (rangeStart rangeEnd : Position)
| InsertReplaceRange (inserting replacing : Position * Position).

(** [item.insertText]: absent, a string, or a [vscode.SnippetString]. *)
Inductive InsertText : Type :=
| NoInsertText
| PlainInsertText (text : string)
| SnippetString (snippetValue : string).

Record CompletionItem : Type := {
  label : string;
  filterText : option string;
  insertText : InsertText;
  itemRange : ItemRange;
  commitCharacters : option (list string)
}.

(** What the wrapped provider hands back:
    [CompletionItem[] | CompletionList | undefined]. *)
Inductive CompletionResult : Type :=
| NoCompletionResult
| ItemArray (items : list CompletionItem)
| CompletionList (items : list CompletionItem) (isIncomplete : bool).

Definition itemsOf (result : CompletionResult) : option (list CompletionItem) :=
  match result with
  | NoCompletionResult => None
  | ItemArray items => Some items
  | CompletionList items _ => Some items
  end.

Section Completion.

(** [document.getText(new vscode.Range(start, position))] as a function of
    [start] and [position]. *)
Variable getText : Position → Position → string.

(** The body of the [map] callback of [provideCompletionItem]; [None]: the
    callback throws ([item.range] is not a [vscode.Range]).  A filter text
    that is [undefined] is concatenated as the text [undefined]. *)
Definition adjustItem (position : Position) (item : CompletionItem) : option CompletionItem :=
  match itemRange item with
  | PlainRange rangeStart _ =>
      let textPrefix := getText rangeStart position in
      Some {| label := label item;
              filterText :=
                if JS.truthy (Some textPrefix)
                then Some (textPrefix +:+ "_" +:+ default "undefined" (filterText item))
                else filterText item;
              insertText :=
                match insertText item with
                | SnippetString v => SnippetString (rewriteSnippet v)
                | other => other
                end;
              itemRange := itemRange item;
              commitCharacters := Some [] |}
  | _ => None
  end.

(** The [provideCompletionItem] middleware, applied to the result of the
    wrapped provider; [None]: the call throws. *)
Definition provideCompletionItem (serverCompletionRanking : bool) (position : Position)
    (list : CompletionResult) : option CompletionResult :=
  if negb serverCompletionRanking then Some list
  else
    items ← itemsOf list;
    items' ← mapM (adjustItem position) items;
    Some (CompletionList items' true).

End Completion.

(** A document whose text between the start of an item and the cursor is
    [se] for an item that starts in column 0, and empty otherwise. *)
Definition sampleGetText (rangeStart position : Position) : string :=
  if Nat.eqb (character rangeStart) 0 then "se" else EmptyString.

Definition cursor : Position := {| line := 3; character := 2 |}.

(** A snippet item without filter text, and an item without range. *)
Definition snippetItem : CompletionItem :=
  {| label := "setCount:";
     filterText := None;
     insertText := SnippetString "setCount:(int)(count)";
     itemRange := PlainRange {| line := 3; character := 0 |} cursor;
     commitCharacters := Some [";"] |}.

Definition rangelessItem : CompletionItem :=
  {| label := "size";
     filterText := Some "size";
     insertText := PlainInsertText "size";
     itemRange := NoRange;
     commitCharacters := None |}.

(** * Results *)

(** ** Splitting and joining *)

Section SplitJoin.

Variable sep : ascii.

Lemma split_not_nil (s : string) : JS.split sep s ≠ [].
Proof.
  destruct s as [|c s]; simpl; [discriminate|].
  destruct (Ascii.eqb c sep); [discriminate|].
  destruct (JS.split sep s); discriminate.
Qed.

Lemma join_cons_char (c : ascii) (seg : string) (segs : list string) :
  JS.join (String sep EmptyString) (String c seg :: segs)
  = String c (JS.join (String sep EmptyString) (seg :: segs)).
Proof. destruct segs; reflexivity. Qed.

Lemma join_split (s : string) : JS.join (String sep EmptyString) (JS.split sep s) = s.
Proof.
  induction s as [|c s IH]; simpl; [reflexivity|].
  destruct (Ascii.eqb c sep) eqn:Hc.
  - apply Ascii.eqb_eq in Hc; subst c.
    destruct (JS.split sep s) as [|seg segs] eqn:Hs.
    + exfalso; exact (split_not_nil s Hs).
    + simpl in *. now rewrite IH.
  - destruct (JS.split sep s) as [|seg segs] eqn:Hs.
    + exfalso; exact (split_not_nil s Hs).
    + rewrite join_cons_char. now rewrite IH.
Qed.

End SplitJoin.

Lemma split_injective (s1 s2 : string) :
  JS.split "/" s1 = JS.split "/" s2 → s1 = s2.
Proof.
  intros H. rewrite <- (join_split "/" s1), <- (join_split "/" s2). now rewrite H.
Qed.

Lemma split_single (seg : string) :
  slashFree seg = true → JS.split "/" seg = [seg].
Proof.
  induction seg as [|c seg IH]; simpl; [reflexivity|].
  intros [Hc Hseg]%andb_true_iff.
  apply negb_true_iff in Hc. rewrite Hc, (IH Hseg). reflexivity.
Qed.

Lemma split_append (seg rest : string) :
  slashFree seg = true →
  JS.split "/" (seg +:+ String "/" rest) = seg :: JS.split "/" rest.
Proof.
  induction seg as [|c seg IH]; simpl; [reflexivity|].
  intros [Hc Hseg]%andb_true_iff.
  apply negb_true_iff in Hc. rewrite Hc, (IH Hseg). reflexivity.
Qed.

Lemma split_join (segs : list string) :
  segs ≠ [] → Forall (fun seg => slashFree seg = true) segs →
  JS.split "/" (JS.join "/" segs) = segs.
Proof.
  induction segs as [|seg segs IH]; [congruence|].
  intros _ Hall. apply Forall_cons in Hall as [Hseg Hall].
  destruct segs as [|seg' segs].
  - simpl. now apply split_single.
  - change (JS.join "/" (seg :: seg' :: segs))
      with (seg +:+ String "/" (JS.join "/" (seg' :: segs))).
    rewrite split_append by assumption.
    f_equal. apply IH; [discriminate|assumption].
Qed.

Lemma split_slashFree (s : string) :
  Forall (fun seg => slashFree seg = true) (JS.split "/" s).
Proof.
  induction s as [|c s IH]; simpl.
  - repeat constructor.
  - destruct (Ascii.eqb c "/") eqn:Hc.
    + constructor; [reflexivity|assumption].
    + destruct (JS.split "/" s) as [|seg segs]; [repeat constructor; simpl; now rewrite Hc|].
      apply Forall_cons in IH as [Hseg Hsegs].
      constructor; [simpl; now rewrite Hc, Hseg|assumption].
Qed.

(** ** The replacement text *)

Lemma getSubstitution_dollarFree (matched before after replacement : string) :
  dollarFree replacement = true →
  JS.getSubstitution matched before after replacement = replacement.
Proof.
  induction replacement as [|c r IH]; simpl; [reflexivity|].
  intros [Hc Hr]%andb_true_iff. apply negb_true_iff in Hc.
  rewrite Hc. f_equal. now apply IH.
Qed.

Lemma replace_dollarFree (s pat replacement : string) :
  dollarFree replacement = true →
  JS.replace s pat replacement = substituteFirst s pat replacement.
Proof.
  intros Hr. unfold JS.replace, substituteFirst.
  destruct (JS.findFirst pat s) as [[before after]|]; [|reflexivity].
  now rewrite getSubstitution_dollarFree.
Qed.

(** ** Reading the trie after insertions *)

Lemma valueAt_newTrieNode (components : list string) :
  valueAt components newTrieNode = None.
Proof. destruct components; reflexivity. Qed.

Lemma valueAt_cons (component : string) (rest : list string) (node : trieNode) :
  valueAt (component :: rest) node
  = match next node !! component with
    | Some child => valueAt rest child
    | None => None
    end.
Proof. unfold valueAt; simpl. now destruct (next node !! component). Qed.

Lemma valueAt_insertComponents (components : list string) (v : string) :
  ∀ (ks : list string) (node : trieNode),
    valueAt ks (insertComponents components v node)
    = if decide (components = ks) then Some v else valueAt ks node.
Proof.
  induction components as [|c rest IH]; intros ks node.
  - destruct ks as [|k ks]; simpl.
    + reflexivity.
    + now rewrite !valueAt_cons.
  - destruct ks as [|k ks].
    + reflexivity.
    + simpl insertComponents. rewrite !valueAt_cons. simpl next.
      destruct (decide (c = k)) as [->|Hne].
      * rewrite lookup_insert_eq, IH.
        destruct (decide (rest = ks)) as [->|Hks].
        -- now rewrite decide_True.
        -- rewrite decide_False by congruence.
           destruct (next node !! k); simpl; [reflexivity|apply valueAt_newTrieNode].
      * rewrite lookup_insert_ne by assumption.
        now rewrite decide_False by congruence.
Qed.

Lemma valueAt_insertEntries (ks : list string) (document : list (string * string)) :
  ∀ root : trieNode,
    valueAt ks (insertEntries document root) = valueAfter ks document (valueAt ks root).
Proof.
  unfold insertEntries, valueAfter.
  induction document as [|entry document IH]; intros root; simpl; [reflexivity|].
  rewrite IH. unfold insertEntry. now rewrite valueAt_insertComponents.
Qed.

Lemma valueAfter_absent (ks : list string) (document : list (string * string))
    (before : option string) :
  (∀ entry, entry ∈ document → JS.split "/" entry.1 ≠ ks) →
  valueAfter ks document before = before.
Proof.
  unfold valueAfter. revert before.
  induction document as [|entry document IH]; intros before Habs; simpl; [reflexivity|].
  rewrite decide_False by (apply Habs; left).
  apply IH. intros e He. apply Habs. now right.
Qed.

Lemma valueAfter_Some (ks : list string) (document : list (string * string))
    (before : option string) (v : string) :
  valueAfter ks document before = Some v →
  before = Some v ∨ ∃ key, (key, v) ∈ document ∧ JS.split "/" key = ks.
Proof.
  unfold valueAfter. revert before.
  induction document as [|[key w] document IH]; intros before; simpl.
  - now left.
  - intros H. apply IH in H as [H|(key' & Hin & Hks)].
    + destruct (decide (JS.split "/" key = ks)) as [Hk|_].
      * right. exists key. split; [|assumption]. injection H as ->. left.
      * now left.
    + right. exists key'. split; [now right|assumption].
Qed.

(** Insertions only add children: a node that can be reached stays
    reachable. *)
Lemma descend_insertComponents_keeps (components : list string) (v : string) :
  ∀ (ks : list string) (node : trieNode),
    is_Some (descend ks node) → is_Some (descend ks (insertComponents components v node)).
Proof.
  induction components as [|c rest IH]; intros ks node Hks.
  - destruct ks; simpl in *; [eauto|assumption].
  - destruct ks as [|k ks]; simpl in *; [eauto|].
    destruct (decide (c = k)) as [->|Hne].
    + rewrite lookup_insert_eq.
      destruct (next node !! k); simpl; [now apply IH|now destruct Hks].
    + now rewrite lookup_insert_ne.
Qed.

Lemma descend_insertComponents_same (components : list string) (v : string) :
  ∀ node : trieNode, is_Some (descend components (insertComponents components v node)).
Proof.
  induction components as [|c rest IH]; intros node; simpl; [eauto|].
  rewrite lookup_insert_eq. apply IH.
Qed.

Lemma descend_insertEntries_keeps (ks : list string) (document : list (string * string)) :
  ∀ root : trieNode,
    is_Some (descend ks root) → is_Some (descend ks (insertEntries document root)).
Proof.
  unfold insertEntries.
  induction document as [|entry document IH]; intros root H; simpl; [assumption|].
  apply IH. now apply descend_insertComponents_keeps.
Qed.

Lemma descend_insertEntries_key (key : string) (document : list (string * string)) :
  ∀ root : trieNode,
    key ∈ document.*1 → is_Some (descend (JS.split "/" key) (insertEntries document root)).
Proof.
  unfold insertEntries.
  induction document as [|entry document IH]; intros root Hin; simpl in *.
  - now apply elem_of_nil in Hin.
  - apply elem_of_cons in Hin as [->|Hin].
    + apply (descend_insertEntries_keeps _ document).
      apply descend_insertComponents_same.
    + now apply IH.
Qed.

Lemma descend_app (ks1 ks2 : list string) :
  ∀ node : trieNode,
    descend (ks1 ++ ks2) node
    = match descend ks1 node with
      | Some node' => descend ks2 node'
      | None => None
      end.
Proof.
  induction ks1 as [|k ks1 IH]; intros node; simpl; [reflexivity|].
  destruct (next node !! k); [apply IH|reflexivity].
Qed.

(** ** The walk *)

(** Along components that are all present the walk is a plain descent. *)
Lemma walk_descend (components : list string) :
  ∀ (node node' : trieNode) (acc rest : list string),
    descend components node = Some node' →
    walk (components ++ rest) node acc = walk rest node' (acc ++ components).
Proof.
  induction components as [|c cs IH]; intros node node' acc rest H; simpl in *.
  - injection H as ->. now rewrite app_nil_r.
  - destruct (next node !! c) as [child|]; [|discriminate].
    rewrite (IH _ _ _ _ H). now rewrite <- app_assoc.
Qed.

(** Whatever the walk passes over, the components it pushes lead from the
    start node to the node it ends in. *)
Lemma walk_consumed (components : list string) :
  ∀ (node node' : trieNode) (acc acc' : list string),
    walk components node acc = (acc', node') →
    ∃ consumed : list string,
      acc' = acc ++ consumed ∧ descend consumed node = Some node'
                ∧ consumed `sublist_of` components.
Proof.
  induction components as [|c cs IH]; intros node node' acc acc' H; simpl in H.
  - injection H as <- <-. exists []. now rewrite app_nil_r.
  - destruct (next node !! c) as [child|] eqn:Hc.
    + apply IH in H as (consumed & -> & Hd & Hsub).
      exists (c :: consumed). rewrite <- app_assoc. simpl. rewrite Hc.
      repeat split; [assumption|]. now apply sublist_skip.
    + apply IH in H as (consumed & -> & Hd & Hsub).
      exists consumed. repeat split; [assumption|]. now apply sublist_cons.
Qed.

(** ** The lookup *)

(** C2, the code at the failing input.  The walk does not end at
    the first component without a child: with the single key [/sandbox/src],
    the query [/sandbox/build/src/foo.h] passes over [build], then consumes
    [src], and the lookup returns the prefix [/sandbox/src], which is not a
    leading segment-sequence of the query. *)
Theorem walk_goes_on_after_missing_component :
  walk (JS.split "/" "/sandbox/build/src/foo.h") scenarioTrie []
    = ([EmptyString ; "sandbox"; "src"],
       TrieNode (Some "/home/dev/project") ∅)
  ∧ getPrefixPathAndReplacePathWithPath scenarioTrie "/sandbox/build/src/foo.h"
    = Some ("/sandbox/src", "/home/dev/project")
  ∧ ¬ (JS.split "/" "/sandbox/src" `prefix_of` JS.split "/" "/sandbox/build/src/foo.h").
Proof.
  split; [|split].
  - vm_compute. reflexivity.
  - vm_compute. reflexivity.
  - intros [rest Hrest]. vm_compute in Hrest. discriminate Hrest.
Qed.



(** ** Reloading the mapping document *)

Section Reload.

Variable JSON_parse : string -> option (list (string * string)).

Lemma updateCompletionPrefixMap_parsed (disk : gmap string FileInfo)
    (context : ClangdContext) (text : string) (document : list (string * string)) :
  readFileSync disk (mappingFilePath context) = Return text →
  JSON_parse text = Some document →
  updateCompletionPrefixMap JSON_parse disk context
  = (Return tt,
     setCompletionPrefixMap context (insertEntries document (completionPrefixMap context))).
Proof.
  intros Hread Hparse. unfold updateCompletionPrefixMap.
  rewrite Hread, Hparse.
  unfold readFileSync, existsSync in *.
  destruct (disk !! mappingFilePath context); [reflexivity|discriminate].
Qed.

(** C3, amended.  A reload on an existing, parseable mapping document
    inserts the entries of the document, in order, into the trie that is
    already there: afterwards every component sequence carries the value
    of the last entry of the document with that key, or else the value it
    carried before; so a key that was configured before the reload and is
    absent from the document keeps its value and still matches. *)
Theorem reload_inserts_into_existing_trie (disk : gmap string FileInfo)
    (context : ClangdContext) (text : string) (document : list (string * string)) :
  readFileSync disk (mappingFilePath context) = Return text →
  JSON_parse text = Some document →
  ∃ context',
    updateCompletionPrefixMap JSON_parse disk context = (Return tt, context')
    ∧ completionPrefixMap context'
      = insertEntries document (completionPrefixMap context)
    ∧ (∀ ks, valueAt ks (completionPrefixMap context')
             = valueAfter ks document (valueAt ks (completionPrefixMap context)))
    ∧ (∀ key v,
         key ∉ document.*1 →
         valueAt (JS.split "/" key) (completionPrefixMap context) = Some v →
         JS.truthy (Some v) = true →
         getPrefixPathAndReplacePathWithPath (completionPrefixMap context') key
         = Some (key, v)).
Proof.
  intros Hread Hparse. eexists. split; [|split; [|split]].
  - exact (updateCompletionPrefixMap_parsed _ _ _ _ Hread Hparse).
  - reflexivity.
  - intros ks. apply valueAt_insertEntries.
  - intros key v Habs Hv Htruthy.
    unfold setCompletionPrefixMap; cbn [completionPrefixMap].
    assert (Hv' : valueAt (JS.split "/" key)
                    (insertEntries document (completionPrefixMap context)) = Some v).
    { rewrite valueAt_insertEntries, valueAfter_absent; [assumption|].
      intros [k w] Hin Hk. apply Habs. apply list_elem_of_fmap.
      exists (k, w). split; [|assumption].
      symmetry. now apply split_injective. }
    unfold valueAt in Hv'.
    destruct (descend _ _) as [node|] eqn:Hd; [|discriminate].
    unfold getPrefixPathAndReplacePathWithPath.
    pose proof (walk_descend _ _ _ [] [] Hd) as Hwalk.
    rewrite app_nil_r in Hwalk. simpl in Hwalk.
    rewrite Hwalk, Hv', Htruthy. now rewrite join_split.
Qed.

(** C4.  A reload leaves the context, and with it the trie, exactly as it
    was when the mapping file does not exist (the call returns normally)
    and when the file exists but its text is not JSON (the call is cut
    short by the SyntaxError of [JSON.parse], before any insertion). *)
Theorem reload_failure_keeps_trie (disk : gmap string FileInfo) (context : ClangdContext) :
  (existsSync disk (mappingFilePath context) = false →
   updateCompletionPrefixMap JSON_parse disk context = (Return tt, context))
  ∧ (∀ text,
       readFileSync disk (mappingFilePath context) = Return text →
       JSON_parse text = None →
       updateCompletionPrefixMap JSON_parse disk context = (Throw SyntaxError, context)).
Proof.
  split.
  - intros Hmissing. unfold updateCompletionPrefixMap. now rewrite Hmissing.
  - intros text Hread Hparse. unfold updateCompletionPrefixMap.
    rewrite Hread, Hparse.
    unfold readFileSync, existsSync in *.
    destruct (disk !! mappingFilePath context); [reflexivity|discriminate].
Qed.

End Reload.

(** C3, counterexample.  With [/sandbox/src] configured and a mapping
    document that now holds [/sandbox/out] alone, the reload succeeds and
    the lookup of a path under [/sandbox/src] still returns the old
    replacement; the trie is not the one built from the document alone. *)
Lemma reload_keeps_stale_keys :
  sampleParse (jsonObject1 "/sandbox/out" "/home/dev/build") = Some outDocument
  ∧ ("/sandbox/src" ∉ outDocument.*1)
  ∧ updateCompletionPrefixMap sampleParse
      (diskWithMapping (jsonObject1 "/sandbox/out" "/home/dev/build"))
      (sampleContext scenarioTrie)
    = (Return tt, sampleContext (insertEntries outDocument scenarioTrie))
  ∧ getPrefixPathAndReplacePathWithPath (insertEntries outDocument scenarioTrie)
      "/sandbox/src/foo/bar.h"
    = Some ("/sandbox/src", "/home/dev/project")
  ∧ insertEntries outDocument scenarioTrie ≠ insertEntries outDocument newTrieNode.
Proof.
  split; [|split; [|split; [|split]]].
  - vm_compute. reflexivity.
  - vm_compute. intros H. inversion H as [|? ? ? H']; subst. inversion H'.
  - vm_compute. reflexivity.
  - vm_compute. reflexivity.
  - vm_compute. intros H. discriminate H.
Qed.

Lemma reload_inserts_into_existing_trie_witness :
  ∃ context',
    updateCompletionPrefixMap sampleParse
      (diskWithMapping (jsonObject1 "/sandbox/out" "/home/dev/build"))
      (sampleContext scenarioTrie) = (Return tt, context')
    ∧ completionPrefixMap context' = insertEntries outDocument scenarioTrie
    ∧ (∀ ks, valueAt ks (completionPrefixMap context')
             = valueAfter ks outDocument (valueAt ks scenarioTrie))
    ∧ (∀ key v,
         key ∉ outDocument.*1 →
         valueAt (JS.split "/" key) scenarioTrie = Some v →
         JS.truthy (Some v) = true →
         getPrefixPathAndReplacePathWithPath (completionPrefixMap context') key
         = Some (key, v)).
Proof.
  apply (reload_inserts_into_existing_trie sampleParse
           (diskWithMapping (jsonObject1 "/sandbox/out" "/home/dev/build"))
           (sampleContext scenarioTrie)
           (jsonObject1 "/sandbox/out" "/home/dev/build") outDocument).
  - vm_compute. reflexivity.
  - vm_compute. reflexivity.
Defined.

Lemma reload_failure_keeps_trie_witness :
  updateCompletionPrefixMap sampleParse ∅ (sampleContext scenarioTrie)
    = (Return tt, sampleContext scenarioTrie)
  ∧ updateCompletionPrefixMap sampleParse (diskWithMapping "{") (sampleContext scenarioTrie)
    = (Throw SyntaxError, sampleContext scenarioTrie).
Proof.
  split.
  - apply (reload_failure_keeps_trie sampleParse ∅ (sampleContext scenarioTrie)).
    vm_compute. reflexivity.
  - apply (reload_failure_keeps_trie sampleParse (diskWithMapping "{")
             (sampleContext scenarioTrie)) with (text := "{").
    + vm_compute. reflexivity.
    + vm_compute. reflexivity.
Defined.

(** ** Resolving the path of an item *)

(** C1, amended.  For an input path that canonicalizes, [resolve] looks the
    canonical path up; on a match whose replacement value holds no dollar
    sign it forms the candidate by substituting the first occurrence of the
    matched prefix in the canonical path with the replacement value, and
    returns the candidate exactly when the candidate exists on disk;
    otherwise, and when nothing matches, it returns the input path as it
    was received.  For an input path that does not canonicalize, [resolve]
    ends with the error of the canonicalization. *)
Theorem resolve_on_canonical_path (disk : gmap string FileInfo) (root : trieNode)
    (itemPath : string) :
  (∀ filePath,
     realpathSync disk itemPath = Return filePath →
     (∀ prefixPath replacePath,
        getPrefixPathAndReplacePathWithPath root filePath = Some (prefixPath, replacePath) →
        dollarFree replacePath = true →
        resolve disk root itemPath
        = Return (if existsSync disk (substituteFirst filePath prefixPath replacePath)
                  then substituteFirst filePath prefixPath replacePath
                  else itemPath))
     ∧ (getPrefixPathAndReplacePathWithPath root filePath = None →
        resolve disk root itemPath = Return itemPath))
  ∧ (∀ e, realpathSync disk itemPath = Throw e → resolve disk root itemPath = Throw e).
Proof.
  unfold resolve. split.
  - intros filePath Hreal. rewrite Hreal. split.
    + intros prefixPath replacePath Hmatch Hfree. cbn.
      rewrite Hmatch, (replace_dollarFree _ _ _ Hfree).
      now destruct (existsSync disk _).
    + intros Hnone. cbn. now rewrite Hnone.
  - intros e Hreal. now rewrite Hreal.
Qed.

(** The scenarios A and B of the specification on disks where the input
    path exists, a path that nothing matches, and a path that is not on
    disk. *)
Lemma resolve_on_canonical_path_witness :
  resolve (diskOf ["/sandbox/src/foo/bar.h"; "/home/dev/project/foo/bar.h"])
    scenarioTrie "/sandbox/src/foo/bar.h"
  = Return "/home/dev/project/foo/bar.h"
  ∧ resolve (diskOf ["/sandbox/src/foo/bar.h"]) scenarioTrie "/sandbox/src/foo/bar.h"
    = Return "/sandbox/src/foo/bar.h"
  ∧ resolve (diskOf ["/usr/include/stdio.h"]) scenarioTrie "/usr/include/stdio.h"
    = Return "/usr/include/stdio.h"
  ∧ resolve ∅ scenarioTrie "/sandbox/src/foo/bar.h" = Throw ENOENT.
Proof.
  split; [|split; [|split]].
  - apply (proj1 (proj1 (resolve_on_canonical_path
                    (diskOf ["/sandbox/src/foo/bar.h"; "/home/dev/project/foo/bar.h"])
                    scenarioTrie "/sandbox/src/foo/bar.h")
                  "/sandbox/src/foo/bar.h" ltac:(vm_compute; reflexivity))
             "/sandbox/src" "/home/dev/project").
    + vm_compute. reflexivity.
    + vm_compute. reflexivity.
  - apply (proj1 (proj1 (resolve_on_canonical_path
                    (diskOf ["/sandbox/src/foo/bar.h"])
                    scenarioTrie "/sandbox/src/foo/bar.h")
                  "/sandbox/src/foo/bar.h" ltac:(vm_compute; reflexivity))
             "/sandbox/src" "/home/dev/project").
    + vm_compute. reflexivity.
    + vm_compute. reflexivity.
  - apply (proj2 (proj1 (resolve_on_canonical_path
                    (diskOf ["/usr/include/stdio.h"])
                    scenarioTrie "/usr/include/stdio.h")
                  "/usr/include/stdio.h" ltac:(vm_compute; reflexivity))).
    vm_compute. reflexivity.
  - apply (proj2 (resolve_on_canonical_path ∅ scenarioTrie "/sandbox/src/foo/bar.h")).
    vm_compute. reflexivity.
Defined.

(** C1, counterexample.  Scenario A on a disk that holds the remapped target
    but not the input path: canonicalization throws, and [resolve] returns
    neither the candidate nor the input path.  And with the replacement
    value [/home/$$dev], on a disk that holds the input path and the path
    obtained by plain substitution: the candidate that the code forms is
    another path, and the input path is returned. *)
Lemma resolve_not_as_stated :
  (existsSync (diskOf ["/home/dev/project/foo/bar.h"]) "/home/dev/project/foo/bar.h" = true
   ∧ resolve (diskOf ["/home/dev/project/foo/bar.h"]) scenarioTrie "/sandbox/src/foo/bar.h"
     = Throw ENOENT)
  ∧ (getPrefixPathAndReplacePathWithPath dollarTrie "/sandbox/src/a.h"
     = Some ("/sandbox/src", "/home/$$dev")
     ∧ substituteFirst "/sandbox/src/a.h" "/sandbox/src" "/home/$$dev" = "/home/$$dev/a.h"
     ∧ existsSync (diskOf ["/sandbox/src/a.h"; "/home/$$dev/a.h"]) "/home/$$dev/a.h" = true
     ∧ resolve (diskOf ["/sandbox/src/a.h"; "/home/$$dev/a.h"]) dollarTrie "/sandbox/src/a.h"
       = Return "/sandbox/src/a.h").
Proof. repeat split; vm_compute; reflexivity. Qed.

(** A replacement value with a dollar pattern is expanded, not inserted as
    it is: the candidate differs from the plain substitution. *)
Lemma replace_expands_dollar_patterns :
  JS.replace "/sandbox/src/a.h" "/sandbox/src" "/home/$$dev" = "/home/$dev/a.h"
  ∧ substituteFirst "/sandbox/src/a.h" "/sandbox/src" "/home/$$dev" = "/home/$$dev/a.h".
Proof. split; vm_compute; reflexivity. Qed.

(** ** The middlewares *)

Lemma mapThrowing_Forall2 {A B : Type} (f : A → Completion B) (items : list A) :
  ∀ items', mapThrowing f items = Return items' →
            Forall2 (fun item item' => f item = Return item') items items'.
Proof.
  induction items as [|item rest IH]; intros items' H; simpl in H.
  - injection H as <-. constructor.
  - destruct (f item) as [item'|e] eqn:Hitem; [|discriminate].
    cbn in H. destruct (mapThrowing f rest) as [rest'|e] eqn:Hrest; [|discriminate].
    cbn in H. injection H as <-. constructor; [assumption|now apply IH].
Qed.

(** The document-link middleware hands back one link per link it received,
    in the same order, each with its target passed through [resolve]. *)
Lemma provideDocumentLinks_every_item (disk : gmap string FileInfo) (root : trieNode)
    (items items' : list DocumentLink) :
  provideDocumentLinks disk root (Some items) = Return (Some items') →
  Forall2 (fun item item' => remapDocumentLink disk root item = Return item') items items'.
Proof.
  destruct items as [|item rest]; simpl.
  - intros H. injection H as <-. constructor.
  - intros H.
    destruct (mapThrowing (remapDocumentLink disk root) (item :: rest)) as [l|e] eqn:Hmap;
      [|simpl in Hmap; rewrite Hmap in H; discriminate].
    simpl in Hmap. rewrite Hmap in H. cbn in H. injection H as <-.
    now apply mapThrowing_Forall2.
Qed.

(** C9, the code at the failing input.  Of two locations that
    both remap, the definition middleware returns the first one alone,
    remapped; the second one is dropped.  The document-link middleware, on
    the same two targets, returns both, remapped and in order. *)
Theorem provideDefinition_returns_first_location_only :
  let disk := diskOf ["/sandbox/src/a.h"; "/sandbox/src/b.h";
                      "/home/dev/project/a.h"; "/home/dev/project/b.h"] in
  provideDefinition disk scenarioTrie
    (Locations [locationAt "/sandbox/src/a.h"; locationAt "/sandbox/src/b.h"])
  = Return (SingleLocation (locationAt "/home/dev/project/a.h"))
  ∧ provideDocumentLinks disk scenarioTrie
      (Some [linkTo "/sandbox/src/a.h"; linkTo "/sandbox/src/b.h"])
    = Return (Some [linkTo "/home/dev/project/a.h"; linkTo "/home/dev/project/b.h"]).
Proof. split; vm_compute; reflexivity. Qed.

(** ** The change handler *)

Section Handler.

Variable JSON_parse : string -> option (list (string * string)).

Lemma fire_unfold (world : Z → World) (sys : System) (t : Timer) :
  fire JSON_parse world sys t
  = timerCallback JSON_parse (world (deadline t)) (timerUri t)
      {| clangdContext := clangdContext sys;
         fileWatcher := fileWatcher sys;
         debounceTimer := debounceTimer sys;
         watchers := watchers sys;
         timers := clearTimeout (timerId t) (timers sys);
         nextTimerId := nextTimerId sys;
         trace := trace sys ++ [TimerFired (deadline t) (timerUri t)] |}.
Proof. reflexivity. Qed.

(** C6.  When the debounce timer fires and the size of the watched file is
    at most 0, the handler returns right after the [stat] call: the
    setting is not read, no policy is dispatched, the reload is not
    called, and the context (with its trie) is unchanged. *)
Theorem empty_file_no_dispatch (world : Z → World) (sys : System) (t : Timer) (size : Z) :
  stat (disk (world (deadline t))) (timerUri t) = Return size →
  size ≤ 0 →
  handleConfigFilesChanged JSON_parse (world (deadline t)) (timerUri t) (clangdContext sys)
    = (Return tt, clangdContext sys, [StatCall (timerUri t)])
  ∧ clangdContext (fire JSON_parse world sys t) = clangdContext sys
  ∧ trace (fire JSON_parse world sys t)
    = trace sys ++ [TimerFired (deadline t) (timerUri t); StatCall (timerUri t)]
  ∧ reloadCalls (trace (fire JSON_parse world sys t)) = reloadCalls (trace sys).
Proof.
  intros Hstat Hsize.
  assert (Hhandler :
    ∀ context, handleConfigFilesChanged JSON_parse (world (deadline t)) (timerUri t) context
               = (Return tt, context, [StatCall (timerUri t)])).
  { intros context. unfold handleConfigFilesChanged. rewrite Hstat.
    now rewrite (proj2 (Z.leb_le size 0) Hsize). }
  split; [apply Hhandler|].
  rewrite fire_unfold. unfold timerCallback. cbn [clangdContext].
  rewrite Hhandler. cbn [clangdContext trace].
  rewrite app_nil_r, <- app_assoc. repeat split.
  unfold reloadCalls. rewrite List.filter_app. simpl.
  rewrite length_app. simpl. lia.
Qed.

(** C7, amended.  When the file no longer exists as the debounce timer
    fires, [stat] fails and the handler ends with that failure (the
    promise of the timer closure is rejected, [debounceTimer] is not
    cleared); no policy is dispatched, the reload is not called and the
    context is unchanged. *)
Theorem missing_file_handler_throws (world : Z → World) (sys : System) (t : Timer) :
  existsSync (disk (world (deadline t))) (timerUri t) = false →
  handleConfigFilesChanged JSON_parse (world (deadline t)) (timerUri t) (clangdContext sys)
    = (Throw FileNotFound, clangdContext sys, [StatCall (timerUri t)])
  ∧ clangdContext (fire JSON_parse world sys t) = clangdContext sys
  ∧ trace (fire JSON_parse world sys t)
    = trace sys ++ [TimerFired (deadline t) (timerUri t); StatCall (timerUri t);
                    UnhandledRejection FileNotFound]
  ∧ reloadCalls (trace (fire JSON_parse world sys t)) = reloadCalls (trace sys)
  ∧ debounceTimer (fire JSON_parse world sys t) = debounceTimer sys.
Proof.
  intros Hmissing.
  assert (Hhandler :
    ∀ context, handleConfigFilesChanged JSON_parse (world (deadline t)) (timerUri t) context
               = (Throw FileNotFound, context, [StatCall (timerUri t)])).
  { intros context. unfold handleConfigFilesChanged, stat.
    unfold existsSync in Hmissing.
    destruct (disk (world (deadline t)) !! timerUri t); [discriminate|reflexivity]. }
  split; [apply Hhandler|].
  rewrite fire_unfold. unfold timerCallback. cbn [clangdContext].
  rewrite Hhandler. cbn [clangdContext trace debounceTimer].
  rewrite <- app_assoc. repeat split.
  unfold reloadCalls. rewrite List.filter_app. simpl.
  rewrite length_app. simpl. lia.
Qed.

End Handler.

Lemma empty_file_no_dispatch_witness :
  let file := "/home/dev/.storage/completion_prefix_map.json" in
  let sys := idleSystem (sampleContext scenarioTrie) in
  handleConfigFilesChanged sampleParse (worldOf (diskWithMapping EmptyString) (Some "prompt"))
    file (sampleContext scenarioTrie)
  = (Return tt, sampleContext scenarioTrie, [StatCall file])
  ∧ clangdContext
      (fire sampleParse (fun _ => worldOf (diskWithMapping EmptyString) (Some "prompt"))
            sys (timerFor 0 2000 file))
    = sampleContext scenarioTrie
  ∧ trace
      (fire sampleParse (fun _ => worldOf (diskWithMapping EmptyString) (Some "prompt"))
            sys (timerFor 0 2000 file))
    = [TimerFired 2000 file; StatCall file]
  ∧ reloadCalls
      (trace (fire sampleParse (fun _ => worldOf (diskWithMapping EmptyString) (Some "prompt"))
                   sys (timerFor 0 2000 file)))
    = O.
Proof.
  intros file sys.
  apply (empty_file_no_dispatch sampleParse
           (fun _ => worldOf (diskWithMapping EmptyString) (Some "prompt"))
           sys (timerFor 0 2000 file) 0).
  - vm_compute. reflexivity.
  - lia.
Defined.

Lemma missing_file_handler_throws_witness :
  let file := "/home/dev/.storage/completion_prefix_map.json" in
  let sys := idleSystem (sampleContext scenarioTrie) in
  handleConfigFilesChanged sampleParse (worldOf ∅ (Some "prompt"))
    file (sampleContext scenarioTrie)
  = (Throw FileNotFound, sampleContext scenarioTrie, [StatCall file])
  ∧ clangdContext
      (fire sampleParse (fun _ => worldOf ∅ (Some "prompt")) sys (timerFor 0 2000 file))
    = sampleContext scenarioTrie
  ∧ trace (fire sampleParse (fun _ => worldOf ∅ (Some "prompt")) sys (timerFor 0 2000 file))
    = [TimerFired 2000 file; StatCall file; UnhandledRejection FileNotFound]
  ∧ reloadCalls
      (trace (fire sampleParse (fun _ => worldOf ∅ (Some "prompt")) sys
                   (timerFor 0 2000 file)))
    = O
  ∧ debounceTimer
      (fire sampleParse (fun _ => worldOf ∅ (Some "prompt")) sys (timerFor 0 2000 file))
    = None.
Proof.
  intros file sys.
  apply (missing_file_handler_throws sampleParse (fun _ => worldOf ∅ (Some "prompt"))
           sys (timerFor 0 2000 file)).
  vm_compute. reflexivity.
Defined.

(** C7, counterexample.  With the file gone at fire time the handler
    does raise: its outcome is the [FileNotFound] failure of [stat], where a
    file of size 0 makes it return normally. *)
Lemma handler_raises_on_missing_file :
  let file := "/home/dev/.storage/completion_prefix_map.json" in
  handleConfigFilesChanged sampleParse (worldOf ∅ (Some "prompt"))
    file (sampleContext scenarioTrie)
  = (Throw FileNotFound, sampleContext scenarioTrie, [StatCall file])
  ∧ handleConfigFilesChanged sampleParse (worldOf (diskWithMapping EmptyString) (Some "prompt"))
      file (sampleContext scenarioTrie)
    = (Return tt, sampleContext scenarioTrie, [StatCall file]).
Proof. split; vm_compute; reflexivity. Qed.

(** ** The file-system subscription *)

Lemma filter_all_disposed (ws : list FileSystemWatcher) :
  Forall (fun w => disposed w = true) ws → filter (fun w => disposed w = false) ws = [].
Proof.
  induction 1 as [|w ws Hw _ IH]; [reflexivity|].
  rewrite filter_cons_False; [assumption|]. rewrite Hw. discriminate.
Qed.

(** Disposing the watcher that [fileWatcher] refers to leaves no watcher
    that is not disposed. *)
Lemma dispose_current_all_disposed (sys : System) :
  soleWatcher sys →
  Forall (fun w => disposed w = true)
    match fileWatcher sys with
    | Some w => alter disposeWatcher w (watchers sys)
    | None => watchers sys
    end.
Proof.
  intros Hsole. apply Forall_lookup. intros i w Hi.
  destruct (disposed w) eqn:Hd; [reflexivity|exfalso].
  destruct (fileWatcher sys) as [j|] eqn:Hj.
  - destruct (decide (j = i)) as [->|Hne].
    + rewrite list_lookup_alter_eq in Hi.
      destruct (watchers sys !! i); simpl in Hi; [|discriminate].
      injection Hi as <-. discriminate Hd.
    + rewrite list_lookup_alter_ne in Hi by assumption.
      specialize (Hsole i w Hi Hd). congruence.
  - specialize (Hsole i w Hi Hd). congruence.
Qed.

Lemma createFileSystemWatcher_spec (disk : gmap string FileInfo) (sys : System) :
  soleWatcher sys →
  soleWatcher (createFileSystemWatcher disk sys)
  ∧ mappingFilePath (clangdContext (createFileSystemWatcher disk sys))
    = mappingFilePath (clangdContext sys)
  ∧ activeWatchers (createFileSystemWatcher disk sys)
    = if existsSync disk (mappingFilePath (clangdContext sys))
      then [watcherOn (mappingFilePath (clangdContext sys))]
      else [].
Proof.
  intros Hsole. pose proof (dispose_current_all_disposed sys Hsole) as Hall.
  unfold createFileSystemWatcher.
  destruct (existsSync disk (mappingFilePath (clangdContext sys))).
  - split; [|split].
    + intros i w. cbn [watchers fileWatcher]. intros Hi Hd.
      apply lookup_app_Some in Hi as [Hi|[Hlen Hi]].
      * rewrite Forall_lookup in Hall. rewrite (Hall i w Hi) in Hd. discriminate.
      * f_equal. apply list_lookup_singleton_Some in Hi as [Hi _]. lia.
    + reflexivity.
    + unfold activeWatchers. cbn [watchers]. rewrite filter_app.
      rewrite (filter_all_disposed _ Hall). reflexivity.
  - split; [|split].
    + intros i w. cbn [watchers fileWatcher]. intros Hi Hd.
      rewrite Forall_lookup in Hall. rewrite (Hall i w Hi) in Hd. discriminate.
    + reflexivity.
    + unfold activeWatchers. cbn [watchers]. now apply filter_all_disposed.
Qed.

Lemma workspaceFoldersChanged_spec (disks : list (gmap string FileInfo)) :
  ∀ (sys : System) (disk0 : gmap string FileInfo),
    soleWatcher sys →
    activeWatchers sys
    = (if existsSync disk0 (mappingFilePath (clangdContext sys))
       then [watcherOn (mappingFilePath (clangdContext sys))] else []) →
    activeWatchers (workspaceFoldersChanged sys disks)
    = if existsSync (latestDisk disk0 disks) (mappingFilePath (clangdContext sys))
      then [watcherOn (mappingFilePath (clangdContext sys))]
      else [].
Proof.
  unfold workspaceFoldersChanged, latestDisk.
  induction disks as [|d disks IH]; intros sys disk0 Hsole Hactive; [exact Hactive|].
  destruct (createFileSystemWatcher_spec d sys Hsole) as (Hsole' & Hpath & Hactive').
  simpl foldl. rewrite <- Hpath in Hactive' |- *.
  rewrite (IH _ d Hsole' Hactive').
  rewrite last_cons. now destruct (last disks).
Qed.

Lemma listenersFor_watcherOn (kind : FileEventKind) (filePath : string) (sys : System) :
  activeWatchers sys = [watcherOn filePath] →
  listenersFor kind filePath sys = [DebouncedHandleConfigFilesChanged].
Proof.
  intros H. unfold listenersFor. rewrite H. simpl.
  rewrite String.eqb_refl. now destruct kind.
Qed.

(** C8, amended.  At start-up and at every WorkspaceFoldersChanged event
    the controller disposes the subscription it holds and, when the mapping
    file [<storageDir>/completion_prefix_map.json] exists at that moment,
    creates a new one on that path with a change and a create listener; when
    the file does not exist then, it creates none.  So at most one
    subscription is active at any time; after an event at which the file
    existed, changes and creations of the file reach the handler; after an
    event at which it did not, no subscription is active and a later
    creation of the file reaches no listener. *)
Theorem subscription_follows_file_existence
    (disk0 : gmap string FileInfo) (context : ClangdContext)
    (disks : list (gmap string FileInfo)) :
  let sys := workspaceFoldersChanged (newCustomFileWatcher disk0 context) disks in
  let file := completionPrefixMapPath context +:+ "/completion_prefix_map.json" in
  (List.length (activeWatchers sys) ≤ 1)%nat
  ∧ (existsSync (latestDisk disk0 disks) file = true →
     activeWatchers sys = [watcherOn file]
     ∧ listenersFor Changed file sys = [DebouncedHandleConfigFilesChanged]
     ∧ listenersFor Created file sys = [DebouncedHandleConfigFilesChanged])
  ∧ (existsSync (latestDisk disk0 disks) file = false →
     activeWatchers sys = []
     ∧ listenersFor Changed file sys = []
     ∧ listenersFor Created file sys = []).
Proof.
  intros sys file.
  assert (Hinit : soleWatcher (idleSystem context)).
  { intros i w Hi. cbn [watchers idleSystem] in Hi. now rewrite lookup_nil in Hi. }
  destruct (createFileSystemWatcher_spec disk0 (idleSystem context) Hinit)
    as (Hsole & Hpath & Hactive).
  assert (Hactive_sys :
    activeWatchers sys
    = if existsSync (latestDisk disk0 disks) file then [watcherOn file] else []).
  { assert (Hfile : mappingFilePath (clangdContext (newCustomFileWatcher disk0 context))
                    = file).
    { unfold newCustomFileWatcher. cbn [clangdContext]. exact Hpath. }
    rewrite <- Hfile.
    apply (workspaceFoldersChanged_spec disks (newCustomFileWatcher disk0 context) disk0).
    - exact Hsole.
    - rewrite Hfile. exact Hactive. }
  split; [|split].
  - rewrite Hactive_sys.
    destruct (existsSync (latestDisk disk0 disks) file); simpl; lia.
  - intros Hex. rewrite Hex in Hactive_sys.
    repeat split; [assumption|now apply listenersFor_watcherOn..].
  - intros Hex. rewrite Hex in Hactive_sys.
    unfold listenersFor. now rewrite Hactive_sys.
Qed.

Lemma subscription_follows_file_existence_witness :
  let file := "/home/dev/.storage/completion_prefix_map.json" in
  let created := workspaceFoldersChanged
                   (newCustomFileWatcher ∅ (sampleContext newTrieNode))
                   [diskWithMapping "{}"] in
  let missing := workspaceFoldersChanged
                   (newCustomFileWatcher (diskWithMapping "{}") (sampleContext newTrieNode))
                   [∅] in
  (activeWatchers created = [watcherOn file]
   ∧ listenersFor Changed file created = [DebouncedHandleConfigFilesChanged]
   ∧ listenersFor Created file created = [DebouncedHandleConfigFilesChanged])
  ∧ (activeWatchers missing = []
     ∧ listenersFor Changed file missing = []
     ∧ listenersFor Created file missing = []).
Proof.
  intros file created missing. split.
  - apply (subscription_follows_file_existence ∅ (sampleContext newTrieNode)
             [diskWithMapping "{}"]).
    vm_compute. reflexivity.
  - apply (subscription_follows_file_existence (diskWithMapping "{}")
             (sampleContext newTrieNode) [∅]).
    vm_compute. reflexivity.
Defined.

(** C8, counterexample.  Started while the mapping file does not exist,
    the controller holds no subscription at all: when the file is created
    afterwards, no listener is called. *)
Lemma creation_undetected_when_file_absent_at_startup :
  let file := "/home/dev/.storage/completion_prefix_map.json" in
  let sys := newCustomFileWatcher ∅ (sampleContext newTrieNode) in
  existsSync ∅ file = false
  ∧ watchers sys = []
  ∧ fileWatcher sys = None
  ∧ listenersFor Created file sys = [].
Proof. repeat split. Qed.

(** ** Debouncing *)

Ltac count_effects :=
  unfold reloadCalls, timerFirings; simpl; first [reflexivity | lia].

Lemma timerFirings_app (l1 l2 : list Effect) :
  timerFirings (l1 ++ l2) = timerFirings l1 ++ timerFirings l2.
Proof. unfold timerFirings. apply flat_map_app. Qed.

Lemma reloadCalls_app (l1 l2 : list Effect) :
  reloadCalls (l1 ++ l2) = (reloadCalls l1 + reloadCalls l2)%nat.
Proof. unfold reloadCalls. now rewrite List.filter_app, length_app. Qed.

Lemma last_nonempty_default {A : Type} (l : list A) :
  ∀ x d d' : A, List.last (x :: l) d = List.last (x :: l) d'.
Proof.
  induction l as [|y l IH]; intros x d d'; [reflexivity|].
  change (List.last (y :: l) d = List.last (y :: l) d'). apply IH.
Qed.

Lemma armedFor_tracked (sys : System) (event : Z * string) :
  armedFor sys event → tracked sys.
Proof. intros (handle & Ht & Hd). unfold tracked. now rewrite Ht. Qed.

(** A notification cancels the timer that is pending, if any, and arms a
    new one. *)
Lemma debounced_rearms (now : Z) (uri : string) (sys : System) :
  tracked sys →
  armedFor (debouncedHandleConfigFilesChanged now uri sys) (now, uri)
  ∧ trace (debouncedHandleConfigFilesChanged now uri sys) = trace sys
  ∧ clangdContext (debouncedHandleConfigFilesChanged now uri sys) = clangdContext sys.
Proof.
  intros Htracked. repeat split.
  exists (nextTimerId sys). split; [|reflexivity].
  unfold debouncedHandleConfigFilesChanged, tracked in *. cbn [timers].
  destruct (timers sys) as [|t [|t' ts]]; [| |contradiction].
  - now destruct (debounceTimer sys).
  - rewrite Htracked. unfold clearTimeout.
    rewrite filter_cons_False by (intros H; now apply H). reflexivity.
Qed.

Section Debounce.

Variable JSON_parse : string -> option (list (string * string)).
Variable world : Z → World.

Lemma advance_nothing_due (now : Z) (sys : System) :
  Forall (fun t => now < deadline t) (timers sys) →
  advance JSON_parse world now sys = sys.
Proof.
  intros Hall. unfold advance.
  assert (Hnone : filter (fun t => deadline t ≤ now) (timers sys) = []).
  { induction Hall as [|t ts Ht _ IH]; [reflexivity|].
    rewrite filter_cons_False by lia. exact IH. }
  now rewrite Hnone.
Qed.

Lemma notify_in_window (sys : System) (event : Z * string) :
  tracked sys →
  Forall (fun t => event.1 < deadline t) (timers sys) →
  armedFor (notify JSON_parse world sys event) event
  ∧ trace (notify JSON_parse world sys event) = trace sys
  ∧ clangdContext (notify JSON_parse world sys event) = clangdContext sys.
Proof.
  intros Htracked Hall. unfold notify.
  rewrite (advance_nothing_due _ _ Hall). destruct event as [now uri].
  now apply debounced_rearms.
Qed.


(** [tracked] holds in every state that notifications and the passing of
    time lead to from a watcher without timers. *)
Lemma tracked_advance (now : Z) (sys : System) :
  tracked sys → tracked (advance JSON_parse world now sys).
Proof.
  intros Htracked. unfold advance.
  destruct (timers sys) as [|t [|t' ts]] eqn:Htimers.
  - now rewrite filter_nil.
  - destruct (decide (deadline t ≤ now)) as [Hdue|Hnot].
    + rewrite filter_cons_True, filter_nil by assumption. simpl foldl.
      rewrite fire_unfold. unfold timerCallback, tracked.
      destruct (handleConfigFilesChanged _ _ _ _) as [[outcome context'] effects].
      cbn [timers]. rewrite Htimers. unfold clearTimeout.
      rewrite filter_cons_False by (intros H; now apply H). exact I.
    + now rewrite filter_cons_False, filter_nil by assumption.
  - unfold tracked in Htracked. now rewrite Htimers in Htracked.
Qed.

Lemma tracked_notify (sys : System) (event : Z * string) :
  tracked sys → tracked (notify JSON_parse world sys event).
Proof.
  intros Htracked. unfold notify.
  apply (armedFor_tracked _ (event.1, event.2)).
  now apply debounced_rearms, tracked_advance.
Qed.

Lemma tracked_run (events : list (Z * string)) :
  ∀ sys, tracked sys → tracked (run JSON_parse world events sys).
Proof.
  induction events as [|event events IH]; intros sys Htracked; [assumption|].
  apply IH. now apply tracked_notify.
Qed.

(** The calls of the handler hold no timer firing and at most one reload. *)
Lemma handler_effects (w : World) (uri : string) (context : ClangdContext) :
  timerFirings (handleConfigFilesChanged JSON_parse w uri context).2 = []
  ∧ (reloadCalls (handleConfigFilesChanged JSON_parse w uri context).2 ≤ 1)%nat.
Proof.
  unfold handleConfigFilesChanged.
  destruct (stat (disk w) uri) as [size|e]; [|split; count_effects].
  destruct (size <=? 0); [split; count_effects|].
  destruct (caseIs _ "restart"); [split; count_effects|].
  destruct (caseIs _ "ignore"); [split; count_effects|].
  destruct (updateCompletionPrefixMap _ _ _) as [outcome context'].
  split; count_effects.
Qed.

Lemma fire_effects (sys : System) (t : Timer) :
  timerFirings (trace (fire JSON_parse world sys t))
  = timerFirings (trace sys) ++ [(deadline t, timerUri t)]
  ∧ (reloadCalls (trace (fire JSON_parse world sys t)) ≤ reloadCalls (trace sys) + 1)%nat
  ∧ timers (fire JSON_parse world sys t) = clearTimeout (timerId t) (timers sys).
Proof.
  rewrite fire_unfold. unfold timerCallback. cbn [clangdContext trace timers].
  pose proof (handler_effects (world (deadline t)) (timerUri t) (clangdContext sys))
    as [Hfirings Hreloads].
  destruct (handleConfigFilesChanged _ _ _ _) as [[outcome context'] effects].
  cbn [snd] in *. cbn [trace timers].
  rewrite !timerFirings_app, !reloadCalls_app, Hfirings.
  repeat split.
  - destruct outcome; simpl; now rewrite app_nil_r.
  - assert (Hrejection :
      reloadCalls match outcome with
                  | Return _ => []
                  | Throw e => [UnhandledRejection e]
                  end = O) by (destruct outcome; reflexivity).
    rewrite Hrejection.
    change (reloadCalls [TimerFired (deadline t) (timerUri t)]) with O. lia.
Qed.


End Debounce.


Example scenario_D_one_reload :
  let sys' := advance sampleParse scenarioDWorld 5000
                (run sampleParse scenarioDWorld scenarioDEvents
                   (idleSystem (sampleContext scenarioTrie))) in
  timerFirings (trace sys') = [(2100, "/home/dev/.storage/completion_prefix_map.json")]
  ∧ reloadCalls (trace sys') = 1%nat
  ∧ completionPrefixMap (clangdContext sys') = insertEntries outDocument scenarioTrie.
Proof. repeat split; vm_compute; reflexivity. Qed.


(** * Further properties of the code *)

(** ** Inserting and looking up *)

Lemma walk_leaf (components : list string) :
  ∀ (node : trieNode) (acc : list string),
    next node = ∅ → walk components node acc = (acc, node).
Proof.
  induction components as [|c cs IH]; intros node acc Hleaf; simpl; [reflexivity|].
  rewrite Hleaf, lookup_empty. now apply IH.
Qed.

(** A query whose components all lead down the trie ends in the node of
    that component sequence, with the query itself as prefix path. *)
Lemma lookup_exact (root node : trieNode) (key : string) :
  descend (JS.split "/" key) root = Some node →
  getPrefixPathAndReplacePathWithPath root key
  = match value node with
    | Some v => if JS.truthy (Some v) then Some (key, v) else None
    | None => None
    end.
Proof.
  intros Hd. unfold getPrefixPathAndReplacePathWithPath.
  pose proof (walk_descend _ _ _ [] [] Hd) as Hwalk.
  rewrite app_nil_r in Hwalk. simpl in Hwalk. rewrite Hwalk.
  now rewrite join_split.
Qed.

Lemma descend_inserted (components : list string) (v : string) (root : trieNode) :
  ∃ node, descend components (insertComponents components v root) = Some node
          ∧ value node = Some v.
Proof.
  destruct (descend_insertComponents_same components v root) as [node Hnode].
  exists node. split; [assumption|].
  pose proof (valueAt_insertComponents components v components root) as Hv.
  unfold valueAt in Hv. rewrite Hnode in Hv. now rewrite decide_True in Hv.
Qed.

(** X1.  Insert, then look up: once an entry with a non-empty replacement
    has been inserted into any trie, the lookup of the key itself returns
    the key and that replacement. *)
Theorem lookup_inserted_key (root : trieNode) (key v : string) :
  v ≠ EmptyString →
  getPrefixPathAndReplacePathWithPath (insertEntry root (key, v)) key = Some (key, v).
Proof.
  intros Hv. unfold insertEntry. cbn [fst snd].
  destruct (descend_inserted (JS.split "/" key) v root) as (node & Hd & Hval).
  rewrite (lookup_exact _ _ _ Hd), Hval.
  destruct v; [contradiction|reflexivity].
Qed.

Lemma lookup_inserted_key_witness :
  getPrefixPathAndReplacePathWithPath
    (insertEntry scenarioTrie ("/sandbox/out", "/home/dev/build")) "/sandbox/out"
  = Some ("/sandbox/out", "/home/dev/build").
Proof.
  apply (lookup_inserted_key scenarioTrie "/sandbox/out" "/home/dev/build").
  discriminate.
Defined.

(** X2.  An entry whose replacement is the empty string switches its key
    off: after it has been inserted, whatever the key was mapped to before,
    the lookup of the key finds nothing. *)
Theorem empty_replacement_switches_key_off (root : trieNode) (key : string) :
  getPrefixPathAndReplacePathWithPath (insertEntry root (key, EmptyString)) key = None.
Proof.
  unfold insertEntry. cbn [fst snd].
  destruct (descend_inserted (JS.split "/" key) EmptyString root) as (node & Hd & Hval).
  now rewrite (lookup_exact _ _ _ Hd), Hval.
Qed.

(** X3.  Without any mapping loaded the lookup finds nothing, and a path
    that exists on disk passes through [resolve] unchanged. *)
Theorem no_mapping_no_rewrite (disk : gmap string FileInfo) (filePath : string) :
  getPrefixPathAndReplacePathWithPath newTrieNode filePath = None
  ∧ (existsSync disk filePath = true → resolve disk newTrieNode filePath = Return filePath).
Proof.
  assert (Hnone : ∀ p, getPrefixPathAndReplacePathWithPath newTrieNode p = None).
  { intros p. unfold getPrefixPathAndReplacePathWithPath.
    now rewrite walk_leaf by reflexivity. }
  split; [apply Hnone|].
  intros Hex. unfold resolve, realpathSync, existsSync in *.
  destruct (disk !! filePath); [|discriminate]. cbn. now rewrite Hnone.
Qed.

Lemma no_mapping_no_rewrite_witness :
  getPrefixPathAndReplacePathWithPath newTrieNode "/usr/include/stdio.h" = None
  ∧ resolve (diskOf ["/usr/include/stdio.h"]) newTrieNode "/usr/include/stdio.h"
    = Return "/usr/include/stdio.h".
Proof.
  split.
  - apply (no_mapping_no_rewrite ∅ "/usr/include/stdio.h").
  - apply (no_mapping_no_rewrite (diskOf ["/usr/include/stdio.h"]) "/usr/include/stdio.h").
    vm_compute. reflexivity.
Defined.

(** X4.  Whatever the lookup returns: the prefix path is a subsequence of
    the components of the query, joined by slashes, and the replacement is
    the non-empty value that the trie holds at exactly that component
    sequence. *)
Theorem lookup_sound (root : trieNode) (filePath prefixPath replacePath : string) :
  getPrefixPathAndReplacePathWithPath root filePath = Some (prefixPath, replacePath) →
  ∃ consumed : list string,
    prefixPath = JS.join "/" consumed
    ∧ consumed `sublist_of` JS.split "/" filePath
    ∧ valueAt consumed root = Some replacePath
    ∧ replacePath ≠ EmptyString.
Proof.
  unfold getPrefixPathAndReplacePathWithPath.
  destruct (walk _ _ _) as [acc node] eqn:Hwalk.
  apply walk_consumed in Hwalk as (consumed & -> & Hd & Hsub).
  rewrite app_nil_l.
  destruct (value node) as [v|] eqn:Hv; [|discriminate].
  destruct v as [|c v]; [discriminate|].
  intros H. injection H as <- <-.
  exists consumed. repeat split; try assumption.
  - unfold valueAt. now rewrite Hd.
  - discriminate.
Qed.

Lemma lookup_sound_witness :
  ∃ consumed : list string,
    "/sandbox/src" = JS.join "/" consumed
    ∧ consumed `sublist_of` JS.split "/" "/sandbox/build/src/foo.h"
    ∧ valueAt consumed scenarioTrie = Some "/home/dev/project"
    ∧ "/home/dev/project" ≠ EmptyString.
Proof.
  apply (lookup_sound scenarioTrie "/sandbox/build/src/foo.h").
  vm_compute. reflexivity.
Defined.

Lemma descend_newTrieNode (ks : list string) (node : trieNode) :
  descend ks newTrieNode = Some node → ks = [].
Proof. destruct ks as [|k ks]; [reflexivity|]. simpl. now rewrite lookup_empty. Qed.

(** A node that can be reached after an insertion could be reached before
    it, or lies on the inserted component sequence. *)
Lemma descend_insertComponents_inv (components : list string) (v : string) :
  ∀ (ks : list string) (node : trieNode),
    is_Some (descend ks (insertComponents components v node)) →
    is_Some (descend ks node) ∨ ks `prefix_of` components.
Proof.
  induction components as [|c rest IH]; intros ks node Hks.
  - destruct ks as [|k ks]; [left; simpl; eauto|]. left. exact Hks.
  - destruct ks as [|k ks]; [left; simpl; eauto|].
    cbn [insertComponents descend next] in Hks.
    destruct (decide (c = k)) as [->|Hne].
    + rewrite lookup_insert_eq in Hks. apply IH in Hks as [Hks|Hks].
      * cbn [descend]. destruct (next node !! k) as [child|]; [now left|].
        simpl in Hks. destruct Hks as [m Hm]. apply descend_newTrieNode in Hm as ->.
        right. apply prefix_cons, prefix_nil.
      * right. now apply prefix_cons.
    + rewrite lookup_insert_ne in Hks by assumption. now left.
Qed.

Lemma descend_insertEntries_inv (ks : list string) (document : list (string * string)) :
  ∀ root : trieNode,
    is_Some (descend ks (insertEntries document root)) →
    is_Some (descend ks root) ∨ ∃ key, key ∈ document.*1 ∧ ks `prefix_of` JS.split "/" key.
Proof.
  unfold insertEntries.
  induction document as [|[key v] document IH]; intros root Hks; simpl in *; [now left|].
  apply IH in Hks as [Hks|(key' & Hin & Hpre)].
  - apply descend_insertComponents_inv in Hks as [Hks|Hks]; [now left|].
    right. exists key. split; [left|assumption].
  - right. exists key'. split; [now right|assumption].
Qed.

Lemma valueAfter_NoDup (document : list (string * string)) (key v : string) :
  ∀ before : option string,
    NoDup document.*1 → (key, v) ∈ document →
    valueAfter (JS.split "/" key) document before = Some v.
Proof.
  induction document as [|[k w] document IH]; intros before Hnodup Hin.
  - now apply elem_of_nil in Hin.
  - rewrite fmap_cons in Hnodup. apply NoDup_cons in Hnodup as [Hfresh Hnodup].
    apply elem_of_cons in Hin as [Heq|Hin].
    + injection Heq as <- <-.
      change (valueAfter (JS.split "/" key) ((key, v) :: document) before)
        with (valueAfter (JS.split "/" key) document
                (if decide (JS.split "/" key = JS.split "/" key) then Some v else before)).
      rewrite decide_True by reflexivity.
      apply valueAfter_absent. intros [k' w'] Hin' Hk'. apply Hfresh.
      apply split_injective in Hk'. cbn [fst] in Hk'. subst k'.
      apply list_elem_of_fmap. now exists (key, w').
    + change (valueAfter (JS.split "/" key) ((k, w) :: document) before)
        with (valueAfter (JS.split "/" key) document
                (if decide (JS.split "/" k = JS.split "/" key) then Some w else before)).
      now apply IH.
Qed.

Lemma lookup_under_leaf (root node : trieNode) (key filePath : string) :
  descend (JS.split "/" key) root = Some node →
  next node = ∅ →
  JS.split "/" key `prefix_of` JS.split "/" filePath →
  getPrefixPathAndReplacePathWithPath root filePath
  = match value node with
    | Some v => if JS.truthy (Some v) then Some (key, v) else None
    | None => None
    end.
Proof.
  intros Hd Hleaf [rest Hrest]. unfold getPrefixPathAndReplacePathWithPath.
  rewrite Hrest, (walk_descend _ _ _ [] rest Hd), (walk_leaf _ _ _ Hleaf).
  rewrite app_nil_l. now rewrite join_split.
Qed.

(** X5.  In the trie built from a document with distinct keys, a key with a
    non-empty replacement that no other key of the document extends matches
    every path that has the segments of the key as leading segments, and the
    lookup returns exactly that key and its replacement. *)
Theorem lookup_under_unextended_key
    (document : list (string * string)) (key v filePath : string) :
  NoDup document.*1 →
  (key, v) ∈ document →
  v ≠ EmptyString →
  (∀ k, k ∈ document.*1 → JS.split "/" key `prefix_of` JS.split "/" k → k = key) →
  JS.split "/" key `prefix_of` JS.split "/" filePath →
  getPrefixPathAndReplacePathWithPath (insertEntries document newTrieNode) filePath
  = Some (key, v).
Proof.
  intros Hnodup Hin Hv Hunext Hpre.
  assert (Hkey : key ∈ document.*1).
  { apply list_elem_of_fmap. now exists (key, v). }
  destruct (descend_insertEntries_key key document newTrieNode Hkey) as [node Hd].
  assert (Hval : value node = Some v).
  { pose proof (valueAt_insertEntries (JS.split "/" key) document newTrieNode) as H.
    unfold valueAt at 1 in H. rewrite Hd in H. rewrite H.
    now apply valueAfter_NoDup. }
  assert (Hleaf : next node = ∅).
  { apply map_empty. intros c.
    destruct (next node !! c) as [child|] eqn:Hc; [exfalso|reflexivity].
    assert (Hd' : is_Some (descend (JS.split "/" key ++ [c])
                             (insertEntries document newTrieNode))).
    { rewrite descend_app, Hd. simpl. rewrite Hc. eauto. }
    apply descend_insertEntries_inv in Hd' as [[m Hm]|(k & Hk & Hpre')].
    - apply descend_newTrieNode in Hm. now destruct (JS.split "/" key).
    - assert (k = key) as ->.
      { apply Hunext; [assumption|]. etrans; [|exact Hpre']. now apply prefix_app_r. }
      apply prefix_length in Hpre'. rewrite length_app in Hpre'. simpl in Hpre'. lia. }
  rewrite (lookup_under_leaf _ _ _ _ Hd Hleaf Hpre), Hval.
  destruct v; [contradiction|reflexivity].
Qed.

Lemma lookup_under_unextended_key_witness :
  getPrefixPathAndReplacePathWithPath (insertEntries siblingsDocument newTrieNode)
    "/sandbox/out/gen/version.h"
  = Some ("/sandbox/out", "/home/dev/build").
Proof.
  apply (lookup_under_unextended_key siblingsDocument "/sandbox/out" "/home/dev/build").
  - cbn. apply NoDup_cons. split; [|apply NoDup_singleton].
    intros H%list_elem_of_singleton. discriminate H.
  - right. left.
  - discriminate.
  - intros k Hk Hpre. cbn in Hk.
    apply elem_of_cons in Hk as [->|Hk].
    + destruct Hpre as [rest Hrest]. vm_compute in Hrest. discriminate Hrest.
    + now apply list_elem_of_singleton in Hk.
  - exists ["gen"; "version.h"]. vm_compute. reflexivity.
Defined.

(** ** Insertions as operations on the trie *)

(** Inserting twice along the same component sequence: the later value
    stays. *)
Lemma insertComponents_overwrite (components : list string) (v w : string) :
  ∀ node : trieNode,
    insertComponents components v (insertComponents components w node)
    = insertComponents components v node.
Proof.
  induction components as [|c rest IH]; intros node; [reflexivity|].
  cbn [insertComponents value next].
  rewrite lookup_insert_eq, insert_insert_eq. cbn [from_option id]. now rewrite IH.
Qed.

(** Insertions along different component sequences commute. *)
Lemma insertComponents_commute (components : list string) :
  ∀ (components' : list string) (v w : string) (node : trieNode),
    components ≠ components' →
    insertComponents components v (insertComponents components' w node)
    = insertComponents components' w (insertComponents components v node).
Proof.
  induction components as [|c rest IH]; intros [|c' rest'] v w node Hne;
    [congruence|reflexivity|reflexivity|].
  cbn [insertComponents value next].
  destruct (decide (c = c')) as [->|Hc].
  - rewrite !lookup_insert_eq, !insert_insert_eq. cbn [from_option id].
    f_equal. f_equal. apply IH. congruence.
  - rewrite !lookup_insert_ne by congruence.
    f_equal. now apply insert_insert_ne.
Qed.

Lemma insertEntry_overwrite (root : trieNode) (entry entry' : string * string) :
  JS.split "/" entry.1 = JS.split "/" entry'.1 →
  insertEntry (insertEntry root entry') entry = insertEntry root entry.
Proof.
  intros Heq. unfold insertEntry. rewrite <- Heq. apply insertComponents_overwrite.
Qed.

Lemma insertEntry_commute (root : trieNode) (entry entry' : string * string) :
  JS.split "/" entry.1 ≠ JS.split "/" entry'.1 →
  insertEntry (insertEntry root entry') entry = insertEntry (insertEntry root entry) entry'.
Proof. intros Hne. unfold insertEntry. now apply insertComponents_commute. Qed.

(** An entry inserted before a document that holds its key leaves no
    mark. *)
Lemma insertEntries_absorb (document : list (string * string)) (entry : string * string) :
  ∀ root : trieNode,
    (∃ entry', entry' ∈ document ∧ JS.split "/" entry'.1 = JS.split "/" entry.1) →
    insertEntries document (insertEntry root entry) = insertEntries document root.
Proof.
  unfold insertEntries.
  induction document as [|e document IH]; intros root (entry' & Hin & Heq).
  - now apply elem_of_nil in Hin.
  - simpl. destruct (decide (JS.split "/" e.1 = JS.split "/" entry.1)) as [He|He].
    + now rewrite insertEntry_overwrite.
    + rewrite insertEntry_commute by assumption. apply IH.
      apply elem_of_cons in Hin as [->|Hin]; [contradiction|]. now exists entry'.
Qed.

Lemma insertEntries_absorb_all (document earlier : list (string * string)) :
  ∀ root : trieNode,
    (∀ entry, entry ∈ earlier →
       ∃ entry', entry' ∈ document ∧ JS.split "/" entry'.1 = JS.split "/" entry.1) →
    insertEntries document (insertEntries earlier root) = insertEntries document root.
Proof.
  induction earlier as [|entry earlier IH] using rev_ind; intros root Hkeys; [reflexivity|].
  unfold insertEntries at 2. rewrite foldl_app. cbn [foldl].
  fold (insertEntries earlier root).
  rewrite insertEntries_absorb.
  - apply IH. intros e He. apply Hkeys. apply elem_of_app. now left.
  - apply Hkeys. apply elem_of_app. right. left.
Qed.

Lemma insertEntries_idempotent (document : list (string * string)) (root : trieNode) :
  insertEntries document (insertEntries document root) = insertEntries document root.
Proof. apply insertEntries_absorb_all. intros entry Hin. now exists entry. Qed.

(** X6.  Reloading twice from an unchanged disk is the same as reloading
    once: the second call has the outcome of the first and leaves the
    context, trie included, as the first call left it. *)
Theorem reload_twice_is_reload_once
    (JSON_parse : string → option (list (string * string)))
    (disk : gmap string FileInfo) (context : ClangdContext) :
  updateCompletionPrefixMap JSON_parse disk
    (updateCompletionPrefixMap JSON_parse disk context).2
  = updateCompletionPrefixMap JSON_parse disk context.
Proof.
  unfold updateCompletionPrefixMap at 2 3.
  destruct (existsSync disk (mappingFilePath context)) eqn:Hex.
  - destruct (readFileSync disk (mappingFilePath context)) as [text|e] eqn:Hread.
    + destruct (JSON_parse text) as [document|] eqn:Hparse.
      * cbn [snd]. unfold updateCompletionPrefixMap.
        change (mappingFilePath (setCompletionPrefixMap context _))
          with (mappingFilePath context).
        rewrite Hex, Hread, Hparse. unfold setCompletionPrefixMap.
        cbn [subscriptions completionPrefixMap completionPrefixMapPath].
        now rewrite insertEntries_idempotent.
      * cbn [snd]. unfold updateCompletionPrefixMap. now rewrite Hex, Hread, Hparse.
    + cbn [snd]. unfold updateCompletionPrefixMap. now rewrite Hex, Hread.
  - cbn [snd]. unfold updateCompletionPrefixMap. now rewrite Hex.
Qed.

(** X7.  The order in which a document lists its entries does not matter:
    two documents with the same entries and distinct keys build the same
    trie on top of any trie. *)
Theorem insertion_order_irrelevant (document document' : list (string * string)) :
  document ≡ₚ document' →
  NoDup document.*1 →
  ∀ root : trieNode, insertEntries document root = insertEntries document' root.
Proof.
  unfold insertEntries.
  induction 1 as [|entry d d' Hperm IH|e1 e2 d|d d' d'' Hperm IH Hperm' IH'];
    intros Hnodup root.
  - reflexivity.
  - simpl. apply IH. rewrite fmap_cons in Hnodup. now apply NoDup_cons in Hnodup as [_ ?].
  - simpl. rewrite insertEntry_commute; [reflexivity|].
    rewrite !fmap_cons in Hnodup. apply NoDup_cons in Hnodup as [Hfresh _].
    intros Heq. apply split_injective in Heq. apply Hfresh. rewrite Heq. left.
  - rewrite IH by assumption. apply IH'.
    now rewrite <- Hperm.
Qed.

Lemma insertion_order_irrelevant_witness :
  insertEntries siblingsDocument scenarioTrie
  = insertEntries [("/sandbox/out", "/home/dev/build"); ("/sandbox/src", "/home/dev/project")]
      scenarioTrie.
Proof.
  apply (insertion_order_irrelevant siblingsDocument
           [("/sandbox/out", "/home/dev/build"); ("/sandbox/src", "/home/dev/project")]).
  - apply perm_swap.
  - cbn. apply NoDup_cons. split; [|apply NoDup_singleton].
    intros H%list_elem_of_singleton. discriminate H.
Defined.

(** ** What the middlewares hand back *)

Lemma resolve_Return_exists (disk : gmap string FileInfo) (root : trieNode)
    (itemPath resolved : string) :
  resolve disk root itemPath = Return resolved → existsSync disk resolved = true.
Proof.
  unfold resolve, realpathSync.
  destruct (disk !! itemPath) as [info|] eqn:Hitem; [|discriminate]. cbn.
  assert (Hex : existsSync disk itemPath = true) by (unfold existsSync; now rewrite Hitem).
  destruct (getPrefixPathAndReplacePathWithPath root (realpath info)) as [[pre rep]|].
  - destruct (existsSync disk (JS.replace (realpath info) pre rep)) eqn:Hcand;
      intros H; injection H as <-; assumption.
  - intros H. now injection H as <-.
Qed.

Lemma resolve_Throw (disk : gmap string FileInfo) (root : trieNode) (itemPath : string) :
  (existsSync disk itemPath = false → resolve disk root itemPath = Throw ENOENT)
  ∧ (∀ e, resolve disk root itemPath = Throw e → e = ENOENT).
Proof.
  unfold resolve, realpathSync, existsSync.
  destruct (disk !! itemPath) as [info|]; cbn.
  - split; [discriminate|]. intros e.
    destruct (getPrefixPathAndReplacePathWithPath root (realpath info)) as [[pre rep]|];
      [destruct (match disk !! _ with Some _ => true | None => false end)|]; discriminate.
  - split; [reflexivity|]. intros e H. now injection H as <-.
Qed.

(** X8.  A path that [resolve] returns exists on disk; it is the input path
    or the path obtained from the canonical path by the replacement. *)
Theorem resolve_returns_existing_path (disk : gmap string FileInfo) (root : trieNode)
    (itemPath resolved : string) :
  resolve disk root itemPath = Return resolved →
  existsSync disk resolved = true
  ∧ (resolved = itemPath
     ∨ ∃ filePath prefixPath replacePath,
         realpathSync disk itemPath = Return filePath
         ∧ getPrefixPathAndReplacePathWithPath root filePath = Some (prefixPath, replacePath)
         ∧ resolved = JS.replace filePath prefixPath replacePath).
Proof.
  intros Hres. split; [exact (resolve_Return_exists _ _ _ _ Hres)|].
  unfold resolve in Hres.
  destruct (realpathSync disk itemPath) as [filePath|e] eqn:Hreal; [|discriminate]. cbn in Hres.
  destruct (getPrefixPathAndReplacePathWithPath root filePath) as [[pre rep]|] eqn:Hmatch.
  - destruct (existsSync disk (JS.replace filePath pre rep)); injection Hres as <-.
    + right. now exists filePath, pre, rep.
    + now left.
  - injection Hres as <-. now left.
Qed.

Lemma resolve_returns_existing_path_witness :
  existsSync (diskOf ["/sandbox/src/foo/bar.h"; "/home/dev/project/foo/bar.h"])
    "/home/dev/project/foo/bar.h" = true
  ∧ ("/home/dev/project/foo/bar.h" = "/sandbox/src/foo/bar.h"
     ∨ ∃ filePath prefixPath replacePath,
         realpathSync (diskOf ["/sandbox/src/foo/bar.h"; "/home/dev/project/foo/bar.h"])
           "/sandbox/src/foo/bar.h" = Return filePath
         ∧ getPrefixPathAndReplacePathWithPath scenarioTrie filePath
           = Some (prefixPath, replacePath)
         ∧ "/home/dev/project/foo/bar.h" = JS.replace filePath prefixPath replacePath).
Proof.
  apply (resolve_returns_existing_path
           (diskOf ["/sandbox/src/foo/bar.h"; "/home/dev/project/foo/bar.h"])
           scenarioTrie "/sandbox/src/foo/bar.h").
  vm_compute. reflexivity.
Defined.

(** X9.  The document-link middleware hands back one link per link it got,
    in the same order and with the same range; a link without target stays
    without target; a target keeps its scheme, and the path it carries
    afterwards exists on disk. *)
Theorem provideDocumentLinks_keeps_shape (disk : gmap string FileInfo) (root : trieNode)
    (items items' : list DocumentLink) :
  provideDocumentLinks disk root (Some items) = Return (Some items') →
  List.length items' = List.length items
  ∧ Forall2
      (fun item item' =>
         linkRange item' = linkRange item
         ∧ match target item with
           | None => target item' = None
           | Some u =>
               ∃ u', target item' = Some u' ∧ scheme u' = scheme u
                     ∧ existsSync disk (path u') = true
           end)
      items items'.
Proof.
  intros H. apply provideDocumentLinks_every_item in H.
  split; [symmetry; exact (Forall2_length _ _ _ H)|].
  eapply Forall2_impl; [exact H|].
  intros item item' Hitem. unfold remapDocumentLink in Hitem.
  destruct (target item) as [u|] eqn:Htarget.
  - destruct (resolve disk root (path u)) as [newPath|e] eqn:Hres; [|discriminate].
    cbn in Hitem. injection Hitem as <-. cbn. split; [reflexivity|].
    exists (withPath u newPath). repeat split.
    exact (resolve_Return_exists _ _ _ _ Hres).
  - injection Hitem as <-. now rewrite Htarget.
Qed.

Lemma provideDocumentLinks_keeps_shape_witness :
  List.length [linkTo "/home/dev/project/a.h"; linkTo "/usr/include/stdio.h"]
  = List.length [linkTo "/sandbox/src/a.h"; linkTo "/usr/include/stdio.h"]
  ∧ Forall2
      (fun item item' =>
         linkRange item' = linkRange item
         ∧ match target item with
           | None => target item' = None
           | Some u =>
               ∃ u', target item' = Some u' ∧ scheme u' = scheme u
                     ∧ existsSync
                         (diskOf ["/sandbox/src/a.h"; "/home/dev/project/a.h";
                                  "/usr/include/stdio.h"]) (path u') = true
           end)
      [linkTo "/sandbox/src/a.h"; linkTo "/usr/include/stdio.h"]
      [linkTo "/home/dev/project/a.h"; linkTo "/usr/include/stdio.h"].
Proof.
  apply (provideDocumentLinks_keeps_shape
           (diskOf ["/sandbox/src/a.h"; "/home/dev/project/a.h"; "/usr/include/stdio.h"])
           scenarioTrie).
  vm_compute. reflexivity.
Defined.

Lemma mapThrowing_Throw {A B : Type} (f : A → Completion B) (items : list A) (e : Error) :
  (∀ item e', f item = Throw e' → e' = e) →
  (∃ item, item ∈ items ∧ f item = Throw e) →
  mapThrowing f items = Throw e.
Proof.
  intros Honly. induction items as [|item rest IH]; intros (bad & Hin & Hbad).
  - now apply elem_of_nil in Hin.
  - simpl. destruct (f item) as [item'|e'] eqn:Hitem.
    + cbn. rewrite IH; [reflexivity|].
      apply elem_of_cons in Hin as [->|Hin]; [congruence|]. now exists bad.
    + cbn. now rewrite (Honly _ _ Hitem).
Qed.

(** X10.  One path that is not on disk fails the whole response: the
    document-link middleware throws when any target of the list is not on
    disk, and the definition middleware throws when the first location of a
    list is not on disk; no link or location is returned then. *)
Theorem dangling_path_fails_the_response (disk : gmap string FileInfo) (root : trieNode) :
  (∀ items item u,
     item ∈ items → target item = Some u → existsSync disk (path u) = false →
     provideDocumentLinks disk root (Some items) = Throw ENOENT)
  ∧ (∀ item rest,
       existsSync disk (path (uri item)) = false →
       provideDefinition disk root (Locations (item :: rest)) = Throw ENOENT).
Proof.
  split.
  - intros items item u Hin Htarget Hmissing.
    assert (Hmap : mapThrowing (remapDocumentLink disk root) items = Throw ENOENT).
    { apply mapThrowing_Throw.
      - intros it e' H. unfold remapDocumentLink in H.
        destruct (target it) as [v|]; [|discriminate].
        destruct (resolve disk root (path v)) as [p|e''] eqn:Hres; [discriminate|].
        cbn in H. injection H as <-. exact (proj2 (resolve_Throw _ _ _) _ Hres).
      - exists item. split; [assumption|]. unfold remapDocumentLink. rewrite Htarget.
        now rewrite (proj1 (resolve_Throw disk root (path u)) Hmissing). }
    destruct items as [|first rest]; [now apply elem_of_nil in Hin|].
    unfold provideDocumentLinks. now rewrite Hmap.
  - intros item rest Hmissing. unfold provideDefinition, remapLocation.
    now rewrite (proj1 (resolve_Throw disk root (path (uri item))) Hmissing).
Qed.

Lemma dangling_path_fails_the_response_witness :
  provideDocumentLinks (diskOf ["/sandbox/src/a.h"; "/home/dev/project/a.h"]) scenarioTrie
    (Some [linkTo "/sandbox/src/a.h"; linkTo "/sandbox/src/gone.h"]) = Throw ENOENT
  ∧ provideDefinition (diskOf ["/sandbox/src/a.h"; "/home/dev/project/a.h"]) scenarioTrie
      (Locations [locationAt "/sandbox/src/gone.h"; locationAt "/sandbox/src/a.h"])
    = Throw ENOENT.
Proof.
  split.
  - apply (proj1 (dangling_path_fails_the_response
                    (diskOf ["/sandbox/src/a.h"; "/home/dev/project/a.h"]) scenarioTrie)
             _ (linkTo "/sandbox/src/gone.h") (fileUri "/sandbox/src/gone.h")).
    + right. left.
    + reflexivity.
    + vm_compute. reflexivity.
  - apply (proj2 (dangling_path_fails_the_response
                    (diskOf ["/sandbox/src/a.h"; "/home/dev/project/a.h"]) scenarioTrie)).
    vm_compute. reflexivity.
Defined.

(** ** Disposing the watcher object *)

Section Disposal.

Variable JSON_parse : string -> option (list (string * string)).
Variable world : Z → World.

Lemma fire_dispose (sys : System) (t : Timer) :
  fire JSON_parse world (dispose sys) t = dispose (fire JSON_parse world sys t).
Proof.
  rewrite !fire_unfold. unfold timerCallback, dispose. cbn [clangdContext].
  now destruct (handleConfigFilesChanged _ _ _ _) as [[outcome context'] effects].
Qed.

Lemma foldl_fire_dispose (ts : list Timer) :
  ∀ sys, foldl (fire JSON_parse world) (dispose sys) ts
         = dispose (foldl (fire JSON_parse world) sys ts).
Proof.
  induction ts as [|t ts IH]; intros sys; [reflexivity|].
  simpl. now rewrite fire_dispose, IH.
Qed.

(** X11.  [dispose()] ends the file-system subscription and nothing else:
    afterwards no listener is called for any file event, but the timers and
    [debounceTimer] are as before, and time passing after the disposal runs
    the pending timers, with their reloads, exactly as it would have without
    the disposal. *)
Theorem dispose_leaves_pending_timer (sys : System) :
  soleWatcher sys →
  activeWatchers (dispose sys) = []
  ∧ (∀ kind filePath, listenersFor kind filePath (dispose sys) = [])
  ∧ timers (dispose sys) = timers sys
  ∧ debounceTimer (dispose sys) = debounceTimer sys
  ∧ (∀ now, advance JSON_parse world now (dispose sys)
            = dispose (advance JSON_parse world now sys)).
Proof.
  intros Hsole.
  assert (Hnone : activeWatchers (dispose sys) = []).
  { unfold activeWatchers, dispose. cbn [watchers].
    apply filter_all_disposed. now apply dispose_current_all_disposed. }
  split; [exact Hnone|]. split.
  - intros kind filePath. unfold listenersFor. now rewrite Hnone.
  - repeat split. intros now. unfold advance.
    change (timers (dispose sys)) with (timers sys). apply foldl_fire_dispose.
Qed.

End Disposal.

Lemma dispose_leaves_pending_timer_witness :
  let sys := debouncedHandleConfigFilesChanged 0
               "/home/dev/.storage/completion_prefix_map.json"
               (newCustomFileWatcher
                  (diskWithMapping (jsonObject1 "/sandbox/out" "/home/dev/build"))
                  (sampleContext scenarioTrie)) in
  activeWatchers (dispose sys) = []
  ∧ (∀ kind filePath, listenersFor kind filePath (dispose sys) = [])
  ∧ timers (dispose sys) = timers sys
  ∧ debounceTimer (dispose sys) = debounceTimer sys
  ∧ (∀ now, advance sampleParse scenarioDWorld now (dispose sys)
            = dispose (advance sampleParse scenarioDWorld now sys)).
Proof.
  intros sys.
  apply (dispose_leaves_pending_timer sampleParse scenarioDWorld sys).
  intros i w Hi Hd. destruct i as [|i]; [reflexivity|].
  vm_compute in Hi. destruct i; discriminate Hi.
Defined.

Example timer_fires_after_dispose :
  let sys := dispose
               (debouncedHandleConfigFilesChanged 0
                  "/home/dev/.storage/completion_prefix_map.json"
                  (newCustomFileWatcher
                     (diskWithMapping (jsonObject1 "/sandbox/out" "/home/dev/build"))
                     (sampleContext scenarioTrie))) in
  activeWatchers sys = []
  ∧ timerFirings (trace (advance sampleParse scenarioDWorld 2000 sys))
    = [(2000, "/home/dev/.storage/completion_prefix_map.json")]
  ∧ reloadCalls (trace (advance sampleParse scenarioDWorld 2000 sys)) = 1%nat.
Proof. repeat split; vm_compute; reflexivity. Qed.

(** ** More on debouncing and dispatch *)

Section Dispatch.

Variable JSON_parse : string -> option (list (string * string)).
Variable world : Z → World.

Lemma advance_armed_due (sys : System) (event : Z * string) (now : Z) :
  armedFor sys event → event.1 + 2000 ≤ now →
  ∃ handle,
    timers sys = [timerFor handle (event.1 + 2000) event.2]
    ∧ debounceTimer sys = Some handle
    ∧ advance JSON_parse world now sys
      = fire JSON_parse world sys (timerFor handle (event.1 + 2000) event.2).
Proof.
  intros (handle & Ht & Hd) Hnow. exists handle. repeat split; try assumption.
  unfold advance. rewrite Ht, filter_cons_True by (simpl; lia). reflexivity.
Qed.

Lemma fire_armed_timers (sys : System) (handle : nat) (due : Z) (u : string) :
  timers sys = [timerFor handle due u] →
  timers (fire JSON_parse world sys (timerFor handle due u)) = [].
Proof.
  intros Ht.
  destruct (fire_effects JSON_parse world sys (timerFor handle due u)) as (_ & _ & Hleft).
  rewrite Hleft, Ht. unfold clearTimeout.
  rewrite filter_cons_False; [reflexivity|]. simpl. intros H. now apply H.
Qed.

(** A notification that comes after the pending timer was due: the timer
    fires first, then the notification arms its own. *)
Lemma notify_after_window (sys : System) (previous event : Z * string) :
  armedFor sys previous → previous.1 + 2000 < event.1 →
  armedFor (notify JSON_parse world sys event) event
  ∧ timerFirings (trace (notify JSON_parse world sys event))
    = timerFirings (trace sys) ++ [(previous.1 + 2000, previous.2)].
Proof.
  intros Harmed Hlate.
  destruct (advance_armed_due sys previous event.1 Harmed) as (handle & Ht & _ & Hadv);
    [lia|].
  unfold notify. rewrite Hadv.
  destruct (fire_effects JSON_parse world sys (timerFor handle (previous.1 + 2000) previous.2))
    as (Hfirings & _ & _).
  pose proof (fire_armed_timers sys _ _ _ Ht) as Hnone.
  set (sys1 := fire JSON_parse world sys _) in *.
  assert (Htracked : tracked sys1) by (unfold tracked; now rewrite Hnone).
  destruct (debounced_rearms event.1 event.2 sys1 Htracked) as (Harmed' & Htrace & _).
  split.
  - now destruct event.
  - rewrite Htrace. exact Hfirings.
Qed.

Lemma run_spaced (rest : list (Z * string)) :
  ∀ (sys : System) (previous : Z * string),
    armedFor sys previous →
    spacedFrom previous.1 rest →
    armedFor (run JSON_parse world rest sys) (List.last rest previous)
    ∧ timerFirings (trace (run JSON_parse world rest sys))
      = timerFirings (trace sys)
        ++ map (fun event => (event.1 + 2000, event.2)) (removelast (previous :: rest)).
Proof.
  induction rest as [|event rest IH]; intros sys previous Harmed Hspaced.
  - split; [exact Harmed|]. simpl. now rewrite app_nil_r.
  - destruct Hspaced as (Hlate & Hspaced).
    destruct (notify_after_window sys previous event Harmed Hlate) as (Harmed' & Hfirings).
    destruct (IH _ event Harmed' Hspaced) as (Hfinal & Hfirings').
    change (run JSON_parse world (event :: rest) sys)
      with (run JSON_parse world rest (notify JSON_parse world sys event)).
    split.
    + destruct rest as [|event' rest']; [exact Hfinal|].
      change (List.last (event :: event' :: rest') previous)
        with (List.last (event' :: rest') previous).
      now rewrite (last_nonempty_default rest' event' previous event).
    + rewrite Hfirings', Hfirings, <- app_assoc. reflexivity.
Qed.

(** X12.  Notifications that come more than 2000 ms apart are not
    coalesced: each one gets its own firing, 2000 ms after it and for its
    own URI, in the order of the notifications. *)
Theorem spaced_notifications_each_fire
    (sys : System) (first : Z * string) (rest : list (Z * string)) (now : Z) :
  tracked sys →
  Forall (fun t => first.1 < deadline t) (timers sys) →
  spacedFrom first.1 rest →
  (List.last rest first).1 + 2000 ≤ now →
  timerFirings (trace (advance JSON_parse world now
                         (run JSON_parse world (first :: rest) sys)))
  = timerFirings (trace sys)
    ++ map (fun event => (event.1 + 2000, event.2)) (first :: rest).
Proof.
  intros Htracked Hdue Hspaced Hnow.
  destruct (notify_in_window JSON_parse world sys first Htracked Hdue)
    as (Harmed & Htrace & _).
  destruct (run_spaced rest _ first Harmed Hspaced) as (Hfinal & Hfirings).
  change (run JSON_parse world (first :: rest) sys)
    with (run JSON_parse world rest (notify JSON_parse world sys first)).
  destruct (advance_armed_due _ _ now Hfinal Hnow) as (handle & _ & _ & Hadv).
  rewrite Hadv.
  destruct (fire_effects JSON_parse world
              (run JSON_parse world rest (notify JSON_parse world sys first))
              (timerFor handle ((List.last rest first).1 + 2000) (List.last rest first).2))
    as (Hlast & _ & _).
  rewrite Hlast, Hfirings, Htrace, <- app_assoc. f_equal.
  cbn [deadline timerUri timerFor].
  rewrite (app_removelast_last (l := first :: rest) first) at 2 by discriminate.
  rewrite map_app. simpl map at 2.
  destruct rest as [|event rest']; [reflexivity|].
  change (List.last (first :: event :: rest') first) with (List.last (event :: rest') first).
  reflexivity.
Qed.

(** What the handler does with a file that has content. *)
Lemma handler_dispatch (w : World) (uri : string) (context : ClangdContext) (size : Z) :
  stat (disk w) uri = Return size → 0 < size →
  handleConfigFilesChanged JSON_parse w uri context
  = if caseIs (onConfigChanged w) "restart" || caseIs (onConfigChanged w) "ignore"
    then (Return tt, context, [StatCall uri; PolicyDispatch (onConfigChanged w)])
    else ((updateCompletionPrefixMap JSON_parse (disk w) context).1,
          (updateCompletionPrefixMap JSON_parse (disk w) context).2,
          [StatCall uri; PolicyDispatch (onConfigChanged w); ReloadCall]).
Proof.
  intros Hstat Hsize. unfold handleConfigFilesChanged. rewrite Hstat.
  rewrite (proj2 (Z.leb_gt size 0) Hsize).
  destruct (caseIs _ "restart"); [reflexivity|].
  destruct (caseIs _ "ignore"); [reflexivity|]. simpl.
  now destruct (updateCompletionPrefixMap _ _ _).
Qed.

(** X13.  From the notification to the lookup: one notification to a watcher
    without a due timer, then quiet; when, 2000 ms later, the file of the
    notification has content, the policy is neither [restart] nor [ignore]
    and the mapping file parses, the context holds from then on the trie
    with the entries of the document inserted, no timer is left and
    [debounceTimer] is cleared. *)
Theorem notification_reloads_mapping
    (sys : System) (event : Z * string) (now size : Z) (text : string)
    (document : list (string * string)) :
  tracked sys →
  Forall (fun t => event.1 < deadline t) (timers sys) →
  event.1 + 2000 ≤ now →
  stat (disk (world (event.1 + 2000))) event.2 = Return size → 0 < size →
  caseIs (onConfigChanged (world (event.1 + 2000))) "restart" = false →
  caseIs (onConfigChanged (world (event.1 + 2000))) "ignore" = false →
  readFileSync (disk (world (event.1 + 2000))) (mappingFilePath (clangdContext sys))
    = Return text →
  JSON_parse text = Some document →
  let sys' := advance JSON_parse world now (notify JSON_parse world sys event) in
  clangdContext sys'
    = setCompletionPrefixMap (clangdContext sys)
        (insertEntries document (completionPrefixMap (clangdContext sys)))
  ∧ timers sys' = []
  ∧ debounceTimer sys' = None
  ∧ reloadCalls (trace sys') = S (reloadCalls (trace sys)).
Proof.
  intros Htracked Hdue Hnow Hstat Hsize Hrestart Hignore Hread Hparse sys'.
  destruct (notify_in_window JSON_parse world sys event Htracked Hdue)
    as (Harmed & Htrace & Hcontext).
  destruct (advance_armed_due _ _ now Harmed Hnow) as (handle & Ht & _ & Hadv).
  unfold sys'. rewrite Hadv.
  split; [|split; [now apply fire_armed_timers|]].
  - rewrite fire_unfold. unfold timerCallback. cbn [clangdContext deadline timerUri timerFor].
    rewrite Hcontext, (handler_dispatch _ _ _ size Hstat Hsize), Hrestart, Hignore.
    cbn [orb]. rewrite (updateCompletionPrefixMap_parsed _ _ _ _ _ Hread Hparse).
    reflexivity.
  - rewrite fire_unfold. unfold timerCallback. cbn [clangdContext deadline timerUri timerFor].
    rewrite Hcontext, (handler_dispatch _ _ _ size Hstat Hsize), Hrestart, Hignore.
    cbn [orb]. rewrite (updateCompletionPrefixMap_parsed _ _ _ _ _ Hread Hparse).
    cbn [fst snd debounceTimer trace]. split; [reflexivity|].
    rewrite Htrace, !reloadCalls_app. unfold reloadCalls at 2 3 4. simpl. lia.
Qed.

(** X14.  Under the policies [restart] and [ignore] a change of the mapping
    file has no effect: when the timer fires on a file with content, the
    context is left as it was, nothing is reloaded (and nothing restarted),
    and [debounceTimer] is cleared. *)
Theorem restart_and_ignore_do_nothing (sys : System) (t : Timer) (size : Z) :
  stat (disk (world (deadline t))) (timerUri t) = Return size → 0 < size →
  caseIs (onConfigChanged (world (deadline t))) "restart"
  || caseIs (onConfigChanged (world (deadline t))) "ignore" = true →
  clangdContext (fire JSON_parse world sys t) = clangdContext sys
  ∧ trace (fire JSON_parse world sys t)
    = trace sys ++ [TimerFired (deadline t) (timerUri t); StatCall (timerUri t);
                    PolicyDispatch (onConfigChanged (world (deadline t)))]
  ∧ debounceTimer (fire JSON_parse world sys t) = None.
Proof.
  intros Hstat Hsize Hpolicy.
  rewrite fire_unfold. unfold timerCallback. cbn [clangdContext].
  rewrite (handler_dispatch _ _ _ size Hstat Hsize), Hpolicy.
  cbn [clangdContext trace debounceTimer]. repeat split.
  now rewrite app_nil_r, <- app_assoc.
Qed.

(** X15.  A reload that fails does not stop the debouncing: when the timer
    fires on a mapping file whose text is not JSON, the context is left as
    it was and the rejection stays unhandled; [debounceTimer] keeps the
    handle of the timer that has fired, and the next notification still
    arms exactly one timer, due 2000 ms after it. *)
Theorem failed_reload_keeps_debouncing
    (sys : System) (event next : Z * string) (size : Z) (text : string) :
  armedFor sys event →
  event.1 + 2000 < next.1 →
  stat (disk (world (event.1 + 2000))) event.2 = Return size → 0 < size →
  caseIs (onConfigChanged (world (event.1 + 2000))) "restart" = false →
  caseIs (onConfigChanged (world (event.1 + 2000))) "ignore" = false →
  readFileSync (disk (world (event.1 + 2000))) (mappingFilePath (clangdContext sys))
    = Return text →
  JSON_parse text = None →
  let fired := advance JSON_parse world next.1 sys in
  clangdContext fired = clangdContext sys
  ∧ trace fired
    = trace sys ++ [TimerFired (event.1 + 2000) event.2; StatCall event.2;
                    PolicyDispatch (onConfigChanged (world (event.1 + 2000)));
                    ReloadCall; UnhandledRejection SyntaxError]
  ∧ debounceTimer fired = debounceTimer sys
  ∧ armedFor (notify JSON_parse world sys next) next.
Proof.
  intros Harmed Hlate Hstat Hsize Hrestart Hignore Hread Hparse fired.
  destruct (advance_armed_due sys event next.1 Harmed) as (handle & Ht & Hd & Hadv); [lia|].
  assert (Hupdate : updateCompletionPrefixMap JSON_parse (disk (world (event.1 + 2000)))
                      (clangdContext sys) = (Throw SyntaxError, clangdContext sys)).
  { unfold updateCompletionPrefixMap. rewrite Hread, Hparse.
    unfold readFileSync, existsSync in *.
    destruct (disk (world (event.1 + 2000)) !! mappingFilePath (clangdContext sys));
      [reflexivity|discriminate]. }
  unfold fired. rewrite Hadv, fire_unfold. unfold timerCallback.
  cbn [clangdContext deadline timerUri timerFor].
  rewrite (handler_dispatch _ _ _ size Hstat Hsize), Hrestart, Hignore. cbn [orb].
  rewrite Hupdate. cbn [fst snd clangdContext trace debounceTimer].
  repeat split.
  - now rewrite <- !app_assoc.
  - now apply (notify_after_window sys event next).
Qed.

End Dispatch.

Lemma spaced_notifications_each_fire_witness :
  timerFirings (trace (advance sampleParse scenarioDWorld 6000
                         (run sampleParse scenarioDWorld spacedEvents
                            (idleSystem (sampleContext scenarioTrie)))))
  = [] ++ [(0 + 2000, "/home/dev/.storage/completion_prefix_map.json");
           (3000 + 2000, "/home/dev/.storage/completion_prefix_map.json")].
Proof.
  apply (spaced_notifications_each_fire sampleParse scenarioDWorld
           (idleSystem (sampleContext scenarioTrie))
           (0, "/home/dev/.storage/completion_prefix_map.json")
           [(3000, "/home/dev/.storage/completion_prefix_map.json")] 6000).
  - exact I.
  - constructor.
  - simpl. lia.
  - simpl. lia.
Defined.

Lemma notification_reloads_mapping_witness :
  let sys' := advance sampleParse scenarioDWorld 2000
                (notify sampleParse scenarioDWorld
                   (idleSystem (sampleContext scenarioTrie))
                   (0, "/home/dev/.storage/completion_prefix_map.json")) in
  clangdContext sys'
    = setCompletionPrefixMap (sampleContext scenarioTrie)
        (insertEntries outDocument scenarioTrie)
  ∧ timers sys' = []
  ∧ debounceTimer sys' = None
  ∧ reloadCalls (trace sys') = 1%nat.
Proof.
  apply (notification_reloads_mapping sampleParse scenarioDWorld
           (idleSystem (sampleContext scenarioTrie))
           (0, "/home/dev/.storage/completion_prefix_map.json") 2000 34
           (jsonObject1 "/sandbox/out" "/home/dev/build") outDocument).
  - exact I.
  - constructor.
  - simpl. lia.
  - vm_compute. reflexivity.
  - lia.
  - vm_compute. reflexivity.
  - vm_compute. reflexivity.
  - vm_compute. reflexivity.
  - vm_compute. reflexivity.
Defined.

Lemma restart_and_ignore_do_nothing_witness :
  let sys := idleSystem (sampleContext scenarioTrie) in
  let t := timerFor 0 2000 "/home/dev/.storage/completion_prefix_map.json" in
  clangdContext (fire sampleParse restartWorld sys t) = sampleContext scenarioTrie
  ∧ trace (fire sampleParse restartWorld sys t)
    = [] ++ [TimerFired 2000 "/home/dev/.storage/completion_prefix_map.json";
             StatCall "/home/dev/.storage/completion_prefix_map.json";
             PolicyDispatch (Some "restart")]
  ∧ debounceTimer (fire sampleParse restartWorld sys t) = None.
Proof.
  intros sys t.
  apply (restart_and_ignore_do_nothing sampleParse restartWorld sys t 34).
  - vm_compute. reflexivity.
  - lia.
  - vm_compute. reflexivity.
Defined.

Lemma failed_reload_keeps_debouncing_witness :
  let next := (5000, "/home/dev/.storage/completion_prefix_map.json") in
  let fired := advance sampleParse malformedWorld 5000 armedSystem in
  clangdContext fired = sampleContext scenarioTrie
  ∧ trace fired
    = [] ++ [TimerFired (0 + 2000) "/home/dev/.storage/completion_prefix_map.json";
             StatCall "/home/dev/.storage/completion_prefix_map.json";
             PolicyDispatch (Some "prompt");
             ReloadCall; UnhandledRejection SyntaxError]
  ∧ debounceTimer fired = Some O
  ∧ armedFor (notify sampleParse malformedWorld armedSystem next) next.
Proof.
  intros next.
  apply (failed_reload_keeps_debouncing sampleParse malformedWorld armedSystem
           (0, "/home/dev/.storage/completion_prefix_map.json") next 1 "{").
  - exists O. split; reflexivity.
  - simpl. lia.
  - vm_compute. reflexivity.
  - lia.
  - vm_compute. reflexivity.
  - vm_compute. reflexivity.
  - vm_compute. reflexivity.
  - vm_compute. reflexivity.
Defined.

(** ** A notification while the closure of the timer is suspended *)

(** With nothing in between, the two parts of a firing are the firing. *)
Lemma fire_in_two_parts (JSON_parse : string → option (list (string * string)))
    (world : Z → World) (sys : System) (t : Timer) :
  fire JSON_parse world sys t
  = timerCallback JSON_parse (world (deadline t)) (timerUri t) (fireBegin sys t).
Proof. reflexivity. Qed.

(** X16.  A notification that arrives while the closure of the timer is
    suspended in [await stat] escapes the debouncing: when the closure goes
    on and the handler returns normally, [debounceTimer] is cleared although
    the timer of that notification is pending; the notification after it
    then cancels nothing, and two timers are armed at once, however close
    the two notifications are. *)
Theorem notification_during_stat_escapes_debounce
    (JSON_parse : string → option (list (string * string))) (w : World)
    (sys : System) (handle : nat) (due : Z) (uri : string) (first second : Z * string) :
  timers sys = [timerFor handle due uri] →
  debounceTimer sys = Some handle →
  (handleConfigFilesChanged JSON_parse w uri (clangdContext sys)).1.1 = Return tt →
  let suspended := fireBegin sys (timerFor handle due uri) in
  let during := debouncedHandleConfigFilesChanged first.1 first.2 suspended in
  let resumed := timerCallback JSON_parse w uri during in
  let after := debouncedHandleConfigFilesChanged second.1 second.2 resumed in
  timers during = [timerFor (nextTimerId sys) (first.1 + 2000) first.2]
  ∧ debounceTimer resumed = None
  ∧ timers resumed = [timerFor (nextTimerId sys) (first.1 + 2000) first.2]
  ∧ timers after = [timerFor (nextTimerId sys) (first.1 + 2000) first.2;
                    timerFor (S (nextTimerId sys)) (second.1 + 2000) second.2].
Proof.
  intros Ht Hd Hreturn suspended during resumed after.
  assert (Hduring : timers during = [timerFor (nextTimerId sys) (first.1 + 2000) first.2]).
  { unfold during, suspended, debouncedHandleConfigFilesChanged, fireBegin.
    cbn [timers debounceTimer nextTimerId]. rewrite Hd, Ht. unfold clearTimeout.
    rewrite filter_cons_False by (simpl; intros H; now apply H).
    reflexivity. }
  assert (Hresumed : debounceTimer resumed = None ∧ timers resumed = timers during
                     ∧ nextTimerId resumed = S (nextTimerId sys)).
  { unfold resumed, timerCallback.
    change (clangdContext during) with (clangdContext sys).
    destruct (handleConfigFilesChanged JSON_parse w uri (clangdContext sys))
      as [[outcome context'] effects].
    cbn [fst] in Hreturn. subst outcome. repeat split. }
  destruct Hresumed as (Hnone & Hsame & Hnext).
  repeat split; [exact Hduring|exact Hnone|now rewrite Hsame|].
  unfold after, debouncedHandleConfigFilesChanged. cbn [timers].
  now rewrite Hnone, Hsame, Hduring, Hnext.
Qed.

Lemma notification_during_stat_escapes_debounce_witness :
  let w := worldOf (diskWithMapping EmptyString) (Some "prompt") in
  let file := "/home/dev/.storage/completion_prefix_map.json" in
  let suspended := fireBegin armedSystem (timerFor 0 2000 file) in
  let during := debouncedHandleConfigFilesChanged 2001 file suspended in
  let resumed := timerCallback sampleParse w file during in
  let after := debouncedHandleConfigFilesChanged 2002 file resumed in
  timers during = [timerFor 1 (2001 + 2000) file]
  ∧ debounceTimer resumed = None
  ∧ timers resumed = [timerFor 1 (2001 + 2000) file]
  ∧ timers after = [timerFor 1 (2001 + 2000) file; timerFor 2 (2002 + 2000) file].
Proof.
  intros w file.
  apply (notification_during_stat_escapes_debounce sampleParse w armedSystem
           0 2000 file (2001, file) (2002, file)).
  - reflexivity.
  - reflexivity.
  - vm_compute. reflexivity.
Defined.

(** ** What the folder-change events leave behind *)

Lemma createFileSystemWatcher_frame (disk : gmap string FileInfo) (sys : System) :
  let sys' := createFileSystemWatcher disk sys in
  let present := existsSync disk (mappingFilePath (clangdContext sys)) in
  completionPrefixMap (clangdContext sys') = completionPrefixMap (clangdContext sys)
  ∧ completionPrefixMapPath (clangdContext sys') = completionPrefixMapPath (clangdContext sys)
  ∧ timers sys' = timers sys
  ∧ debounceTimer sys' = debounceTimer sys
  ∧ trace sys' = trace sys
  ∧ List.length (watchers sys')
    = (List.length (watchers sys) + if present then 1 else 0)%nat
  ∧ ∃ added, subscriptions (clangdContext sys') = subscriptions (clangdContext sys) ++ added
             ∧ List.length added = if present then 3%nat else 0%nat.
Proof.
  unfold createFileSystemWatcher.
  assert (Hlen : List.length
                   match fileWatcher sys with
                   | Some w => alter disposeWatcher w (watchers sys)
                   | None => watchers sys
                   end = List.length (watchers sys)).
  { destruct (fileWatcher sys); [apply length_alter|reflexivity]. }
  destruct (existsSync disk (mappingFilePath (clangdContext sys))); cbn.
  - repeat split.
    + rewrite length_app, Hlen. reflexivity.
    + eexists. split; reflexivity.
  - repeat split.
    + rewrite Hlen. lia.
    + exists []. split; [now rewrite app_nil_r|reflexivity].
Qed.

Lemma workspaceFoldersChanged_frame (disks : list (gmap string FileInfo)) :
  ∀ sys : System,
    let sys' := workspaceFoldersChanged sys disks in
    completionPrefixMap (clangdContext sys') = completionPrefixMap (clangdContext sys)
    ∧ completionPrefixMapPath (clangdContext sys')
      = completionPrefixMapPath (clangdContext sys)
    ∧ timers sys' = timers sys
    ∧ debounceTimer sys' = debounceTimer sys
    ∧ trace sys' = trace sys
    ∧ List.length (watchers sys')
      = (List.length (watchers sys)
         + countExisting (mappingFilePath (clangdContext sys)) disks)%nat
    ∧ ∃ added,
        subscriptions (clangdContext sys') = subscriptions (clangdContext sys) ++ added
        ∧ List.length added
          = (3 * countExisting (mappingFilePath (clangdContext sys)) disks)%nat.
Proof.
  unfold workspaceFoldersChanged.
  induction disks as [|d disks IH]; intros sys.
  - cbn. repeat split; [lia|]. exists []. split; [now rewrite app_nil_r|reflexivity].
  - destruct (createFileSystemWatcher_frame d sys)
      as (Htrie & Hpath & Htimers & Hdebounce & Htrace & Hwatchers & added & Hsubs & Hadded).
    destruct (IH (createFileSystemWatcher d sys))
      as (Htrie' & Hpath' & Htimers' & Hdebounce' & Htrace' & Hwatchers'
          & added' & Hsubs' & Hadded').
    assert (Hfile : mappingFilePath (clangdContext (createFileSystemWatcher d sys))
                    = mappingFilePath (clangdContext sys)).
    { unfold mappingFilePath. now rewrite Hpath. }
    rewrite Hfile in Hwatchers', Hadded'.
    cbn [foldl]. unfold countExisting in *. cbn [List.filter].
    repeat split; try congruence.
    + rewrite Hwatchers', Hwatchers.
      destruct (existsSync d (mappingFilePath (clangdContext sys))); simpl; lia.
    + exists (added ++ added'). split.
      * now rewrite Hsubs', Hsubs, app_assoc.
      * rewrite length_app, Hadded, Hadded'.
        destruct (existsSync d (mappingFilePath (clangdContext sys))); simpl; lia.
Qed.

(** X17.  Start-up and folder-change events only ever add: they leave the
    trie, the storage path, the timers and [debounceTimer] alone; every
    event at which the mapping file exists adds one watcher object and
    three disposables to [context.subscriptions], and nothing is ever
    removed from either list. *)
Theorem folder_changes_only_add
    (disk0 : gmap string FileInfo) (context : ClangdContext)
    (disks : list (gmap string FileInfo)) :
  let sys := workspaceFoldersChanged (newCustomFileWatcher disk0 context) disks in
  let created := countExisting (mappingFilePath context) (disk0 :: disks) in
  completionPrefixMap (clangdContext sys) = completionPrefixMap context
  ∧ completionPrefixMapPath (clangdContext sys) = completionPrefixMapPath context
  ∧ timers sys = []
  ∧ debounceTimer sys = None
  ∧ List.length (watchers sys) = created
  ∧ ∃ added, subscriptions (clangdContext sys) = subscriptions context ++ added
             ∧ List.length added = (3 * created + 1)%nat.
Proof.
  intros sys created.
  destruct (createFileSystemWatcher_frame disk0 (idleSystem context))
    as (Htrie & Hpath & Htimers & Hdebounce & _ & Hwatchers & added & Hsubs & Hadded).
  destruct (workspaceFoldersChanged_frame disks (newCustomFileWatcher disk0 context))
    as (Htrie' & Hpath' & Htimers' & Hdebounce' & _ & Hwatchers' & added' & Hsubs' & Hadded').
  fold sys in Htrie', Hpath', Htimers', Hdebounce', Hwatchers', Hsubs'.
  assert (Hfile : mappingFilePath (clangdContext (newCustomFileWatcher disk0 context))
                  = mappingFilePath context).
  { unfold mappingFilePath.
    change (completionPrefixMapPath (clangdContext (newCustomFileWatcher disk0 context)))
      with (completionPrefixMapPath
              (clangdContext (createFileSystemWatcher disk0 (idleSystem context)))).
    now rewrite Hpath. }
  rewrite Hfile in Hwatchers', Hadded'.
  unfold created, countExisting in *. cbn [List.filter].
  cbn [idleSystem clangdContext watchers] in Hwatchers, Hadded.
  repeat split.
  - rewrite Htrie'. exact Htrie.
  - rewrite Hpath'. exact Hpath.
  - rewrite Htimers'. exact Htimers.
  - rewrite Hdebounce'. exact Hdebounce.
  - rewrite Hwatchers'.
    change (watchers (newCustomFileWatcher disk0 context))
      with (watchers (createFileSystemWatcher disk0 (idleSystem context))).
    rewrite Hwatchers.
    destruct (existsSync disk0 (mappingFilePath context)); simpl; lia.
  - exists (added ++ [WorkspaceFoldersListener] ++ added'). split.
    + rewrite Hsubs'.
      change (subscriptions (clangdContext (newCustomFileWatcher disk0 context)))
        with (subscriptions (clangdContext (createFileSystemWatcher disk0 (idleSystem context)))
              ++ [WorkspaceFoldersListener]).
      rewrite Hsubs. cbn [idleSystem clangdContext]. now rewrite <- !app_assoc.
    + rewrite !length_app, Hadded, Hadded'.
      destruct (existsSync disk0 (mappingFilePath context)); simpl; lia.
Qed.

(** ** The workspace-symbol middleware *)

Lemma qualifySymbol_idempotent (query : string) (symbol : SymbolInformation) :
  qualifySymbol query (qualifySymbol query symbol) = qualifySymbol query symbol.
Proof.
  unfold qualifySymbol. destruct (includes query "::"); reflexivity.
Qed.

(** X18.  Qualifying is idempotent: symbols that went through the
    middleware once come out unchanged when they go through it again with
    the same query (the container is folded into the name only once); and
    for a query without [::] the symbols are handed back as they are. *)
Theorem provideWorkspaceSymbols_idempotent (query : string)
    (symbols : option (list SymbolInformation)) :
  provideWorkspaceSymbols query (provideWorkspaceSymbols query symbols)
  = provideWorkspaceSymbols query symbols
  ∧ (includes query "::" = false → provideWorkspaceSymbols query symbols = symbols).
Proof.
  destruct symbols as [items|]; [|split; reflexivity]. split.
  - cbn. f_equal. rewrite map_map. apply map_ext. intros symbol.
    apply qualifySymbol_idempotent.
  - intros Hq. cbn. f_equal. rewrite <- (map_id items) at 2. apply map_ext.
    intros symbol. unfold qualifySymbol. now rewrite Hq.
Qed.

Lemma provideWorkspaceSymbols_idempotent_witness :
  provideWorkspaceSymbols "main"
    (Some [{| name := "main"; containerName := "app"; kind := 11%nat;
              location := locationAt "/home/dev/project/main.cc" |}])
  = Some [{| name := "main"; containerName := "app"; kind := 11%nat;
             location := locationAt "/home/dev/project/main.cc" |}].
Proof.
  apply (proj2 (provideWorkspaceSymbols_idempotent "main"
                  (Some [{| name := "main"; containerName := "app"; kind := 11%nat;
                            location := locationAt "/home/dev/project/main.cc" |}]))).
  vm_compute. reflexivity.
Defined.

Example qualified_query_folds_container_once :
  let symbol := {| name := "main"; containerName := "app"; kind := 11%nat;
                   location := locationAt "/home/dev/project/main.cc" |} in
  provideWorkspaceSymbols "app::ma" (Some [symbol])
  = Some [{| name := "app::main"; containerName := EmptyString; kind := 11%nat;
             location := locationAt "/home/dev/project/main.cc" |}]
  ∧ provideWorkspaceSymbols "app::ma" (provideWorkspaceSymbols "app::ma" (Some [symbol]))
    = provideWorkspaceSymbols "app::ma" (Some [symbol]).
Proof. split; vm_compute; reflexivity. Qed.

(** ** The completion middleware *)

Lemma append_cons (c : ascii) (a b : string) : String c a +:+ b = String c (a +:+ b).
Proof. reflexivity. Qed.

Lemma append_nil_l (b : string) : EmptyString +:+ b = b.
Proof. reflexivity. Qed.

Ltac push_append := rewrite ?append_cons, ?append_nil_l.

Lemma append_assoc (a b c : string) : (a +:+ b) +:+ c = a +:+ b +:+ c.
Proof. induction a as [|x a IH]; push_append; [reflexivity|now rewrite IH]. Qed.

Lemma length_append (a b : string) :
  String.length (a +:+ b) = (String.length a + String.length b)%nat.
Proof. induction a as [|x a IH]; push_append; simpl; [reflexivity|now rewrite IH]. Qed.

Lemma startsWith_append (pat rest : string) : JS.startsWith pat (pat +:+ rest) = true.
Proof.
  induction pat as [|c pat IH]; push_append; simpl; [reflexivity|].
  now rewrite Ascii.eqb_refl, IH.
Qed.

Lemma startsWith_dropChars (pat : string) :
  ∀ s, JS.startsWith pat s = true → s = pat +:+ JS.dropChars (String.length pat) s.
Proof.
  induction pat as [|c pat IH]; intros s H; simpl; [reflexivity|].
  destruct s as [|d s]; simpl in H; [discriminate|].
  apply andb_true_iff in H as [Hc Hs]. apply Ascii.eqb_eq in Hc as ->.
  push_append. simpl. f_equal. now apply IH.
Qed.

Lemma findFirst_unfold (pat s : string) :
  JS.findFirst pat s
  = if JS.startsWith pat s then Some (EmptyString, JS.dropChars (String.length pat) s)
    else match s with
         | EmptyString => None
         | String c s' =>
             match JS.findFirst pat s' with
             | Some (before, after) => Some (String c before, after)
             | None => None
             end
         end.
Proof. destruct s; reflexivity. Qed.

(** [findFirst] returns the text around an occurrence of the pattern. *)
Lemma findFirst_sound (pat : string) :
  ∀ s before after, JS.findFirst pat s = Some (before, after) → s = before +:+ pat +:+ after.
Proof.
  induction s as [|c s IH]; intros before after H; rewrite findFirst_unfold in H.
  - destruct (JS.startsWith pat EmptyString) eqn:Hs; [|discriminate].
    injection H as <- <-. now apply startsWith_dropChars.
  - destruct (JS.startsWith pat (String c s)) eqn:Hs.
    + injection H as <- <-. now apply startsWith_dropChars.
    + destruct (JS.findFirst pat s) as [[b a]|] eqn:Hrec; [|discriminate].
      injection H as <- <-. push_append. f_equal. now apply IH.
Qed.

(** [findFirst] finds the pattern wherever it occurs. *)
Lemma findFirst_complete (pat after : string) :
  ∀ before, is_Some (JS.findFirst pat (before +:+ pat +:+ after)).
Proof.
  induction before as [|c before IH]; rewrite findFirst_unfold.
  - push_append. rewrite startsWith_append. eauto.
  - destruct (JS.startsWith pat _); [eauto|].
    push_append. destruct IH as [[b a] ->]. eauto.
Qed.

Lemma matchGroup_spec (s : string) :
  ∀ acc g, matchGroup acc s = Some g →
           ∃ x tail, s = x +:+ String ")" tail ∧ g = "(" +:+ acc +:+ x +:+ ")".
Proof.
  induction s as [|c s IH]; intros acc g H; simpl in H; [discriminate|].
  destruct (Ascii.eqb c ")" && _) eqn:Hclose.
  - injection H as <-. apply andb_true_iff in Hclose as [Hc _].
    apply Ascii.eqb_eq in Hc as ->. now exists EmptyString, s.
  - destruct (isLineTerminator c); [discriminate|].
    apply IH in H as (x & tail & -> & ->).
    exists (String c x), tail. split; [reflexivity|].
    push_append. f_equal. now rewrite append_assoc.
Qed.

(** A match of the pattern: group 1 is a parenthesised text that occurs in
    the subject. *)
Lemma execGroup1_spec (s : string) :
  ∀ g, execGroup1 s = Some g →
       ∃ before after x, s = before +:+ g +:+ after ∧ g = "(" +:+ x +:+ ")".
Proof.
  induction s as [|c s IH]; intros g H; simpl in H; [discriminate|].
  destruct s as [|d rest]; [simpl in H; discriminate|].
  destruct (Ascii.eqb c ":" && Ascii.eqb d "(") eqn:Hhead.
  - destruct (matchGroup EmptyString rest) as [g'|] eqn:Hgroup.
    + injection H as <-. apply matchGroup_spec in Hgroup as (x & tail & -> & ->).
      apply andb_true_iff in Hhead as [_ Hd]. apply Ascii.eqb_eq in Hd as ->.
      exists (String c EmptyString), tail, x. split; [|reflexivity].
      push_append. f_equal. f_equal. now rewrite append_assoc.
    + apply IH in H as (before & after & x & -> & ->).
      now exists (String c before), after, x.
  - apply IH in H as (before & after & x & -> & ->).
    now exists (String c before), after, x.
Qed.

Lemma rewriteSnippet_length (v : string) :
  String.length (rewriteSnippet v) = String.length v.
Proof.
  unfold rewriteSnippet. destruct (execGroup1 v) as [g|] eqn:Hexec; [|reflexivity].
  apply execGroup1_spec in Hexec as (before & after & x & Hv & _).
  unfold JS.replace.
  destruct (findFirst_complete g after before) as [[b a] Hfind].
  rewrite <- Hv in Hfind. rewrite Hfind. apply findFirst_sound in Hfind.
  rewrite Hfind. cbn [JS.getSubstitution]. push_append.
  rewrite !length_append. lia.
Qed.

(** X19.  The snippet rewrite only moves text: when the pattern matches, its
    group 1 is a parenthesised text, the first occurrence of that text is
    taken out of the snippet and put in front of it; nothing is lost or
    added, and the length of the snippet stays the same. *)
Theorem snippet_rewrite_moves_group (v g : string) :
  execGroup1 v = Some g →
  ∃ before after x,
    g = "(" +:+ x +:+ ")"
    ∧ JS.findFirst g v = Some (before, after)
    ∧ v = before +:+ g +:+ after
    ∧ rewriteSnippet v = g +:+ before +:+ after
    ∧ String.length (rewriteSnippet v) = String.length v.
Proof.
  intros Hexec.
  destruct (execGroup1_spec _ _ Hexec) as (before0 & after0 & x & Hv & Hg).
  destruct (findFirst_complete g after0 before0) as [[before after] Hfind].
  rewrite <- Hv in Hfind.
  exists before, after, x. repeat split; try assumption.
  - now apply findFirst_sound.
  - unfold rewriteSnippet, JS.replace. now rewrite Hexec, Hfind.
  - apply rewriteSnippet_length.
Qed.

Lemma snippet_rewrite_moves_group_witness :
  ∃ before after x,
    "(int)" = "(" +:+ x +:+ ")"
    ∧ JS.findFirst "(int)" "setCount:(int)(count)" = Some (before, after)
    ∧ "setCount:(int)(count)" = before +:+ "(int)" +:+ after
    ∧ rewriteSnippet "setCount:(int)(count)" = "(int)" +:+ before +:+ after
    ∧ String.length (rewriteSnippet "setCount:(int)(count)")
      = String.length "setCount:(int)(count)".
Proof.
  apply (snippet_rewrite_moves_group "setCount:(int)(count)" "(int)").
  vm_compute. reflexivity.
Defined.

Example snippet_rewrite_example :
  rewriteSnippet "setCount:(int)(count)" = "(int)setCount:(count)"
  ∧ rewriteSnippet "count" = "count".
Proof. split; vm_compute; reflexivity. Qed.

Section CompletionFacts.

Variable getText : Position → Position → string.

Lemma adjustItem_Some (position : Position) (item item' : CompletionItem) :
  adjustItem getText position item = Some item' →
  ∃ rangeStart rangeEnd,
    itemRange item = PlainRange rangeStart rangeEnd
    ∧ label item' = label item
    ∧ itemRange item' = itemRange item
    ∧ commitCharacters item' = Some []
    ∧ filterText item'
      = (if JS.truthy (Some (getText rangeStart position))
         then Some (getText rangeStart position +:+ "_"
                    +:+ default "undefined" (filterText item))
         else filterText item)
    ∧ match insertText item with
      | SnippetString v =>
          insertText item' = SnippetString (rewriteSnippet v)
          ∧ String.length (rewriteSnippet v) = String.length v
      | other => insertText item' = other
      end.
Proof.
  unfold adjustItem. destruct (itemRange item) as [|s e|i r] eqn:Hrange; try discriminate.
  intros H. injection H as <-. exists s, e. cbn. repeat split.
  destruct (insertText item); try reflexivity.
  split; [reflexivity|apply rewriteSnippet_length].
Qed.

(** X20.  With server-side ranking on, the completion middleware hands back
    a completion list marked incomplete that holds one item per item it
    got, in the same order: label and range are kept, the commit characters
    are emptied, a non-empty typed prefix and an underscore are put in front
    of the filter text (in front of the text [undefined] when the item has
    none), a plain insert text is kept and a snippet keeps its length. *)
Theorem completion_items_kept_and_marked (position : Position)
    (list result : CompletionResult) :
  provideCompletionItem getText true position list = Some result →
  ∃ items items',
    itemsOf list = Some items
    ∧ result = CompletionList items' true
    ∧ List.length items' = List.length items
    ∧ Forall2
        (fun item item' =>
           ∃ rangeStart rangeEnd,
             itemRange item = PlainRange rangeStart rangeEnd
             ∧ label item' = label item
             ∧ itemRange item' = itemRange item
             ∧ commitCharacters item' = Some []
             ∧ filterText item'
               = (if JS.truthy (Some (getText rangeStart position))
                  then Some (getText rangeStart position +:+ "_"
                             +:+ default "undefined" (filterText item))
                  else filterText item)
             ∧ match insertText item with
               | SnippetString v =>
                   insertText item' = SnippetString (rewriteSnippet v)
                   ∧ String.length (rewriteSnippet v) = String.length v
               | other => insertText item' = other
               end)
        items items'.
Proof.
  unfold provideCompletionItem. cbn [negb].
  destruct (itemsOf list) as [items|]; [|discriminate]. cbn.
  destruct (mapM (adjustItem getText position) items) as [items'|] eqn:Hmap; [|discriminate].
  cbn. intros H. injection H as <-. exists items, items'.
  apply mapM_Some_1 in Hmap.
  repeat split; [symmetry; exact (Forall2_length _ _ _ Hmap)|].
  eapply Forall2_impl; [exact Hmap|]. intros item item'. apply adjustItem_Some.
Qed.

(** X21.  With server-side ranking on, the completion middleware throws
    when the wrapped provider returned nothing, and when any item of the
    result has no plain range; with ranking off it hands the result back
    untouched, whatever it is. *)
Theorem completion_fails_without_range (position : Position) :
  provideCompletionItem getText true position NoCompletionResult = None
  ∧ (∀ list items item,
       itemsOf list = Some items → item ∈ items →
       (∀ rangeStart rangeEnd, itemRange item ≠ PlainRange rangeStart rangeEnd) →
       provideCompletionItem getText true position list = None)
  ∧ (∀ list, provideCompletionItem getText false position list = Some list).
Proof.
  split; [reflexivity|]. split; [|reflexivity].
  intros list items item Hitems Hin Hrange.
  unfold provideCompletionItem. cbn [negb]. rewrite Hitems. cbn.
  assert (Hmap : mapM (adjustItem getText position) items = None).
  { apply mapM_None_2. apply Exists_exists. exists item. split; [assumption|].
    unfold adjustItem. destruct (itemRange item) as [|s e|i r]; try reflexivity.
    now destruct (Hrange s e). }
  now rewrite Hmap.
Qed.

End CompletionFacts.

Lemma completion_items_kept_and_marked_witness :
  provideCompletionItem sampleGetText true cursor (ItemArray [snippetItem])
  = Some (CompletionList
            [{| label := "setCount:";
                filterText := Some "se_undefined";
                insertText := SnippetString "(int)setCount:(count)";
                itemRange := PlainRange {| line := 3; character := 0 |} cursor;
                commitCharacters := Some [] |}]
            true)
  ∧ ∃ items items',
      itemsOf (ItemArray [snippetItem]) = Some items
      ∧ CompletionList
          [{| label := "setCount:";
              filterText := Some "se_undefined";
              insertText := SnippetString "(int)setCount:(count)";
              itemRange := PlainRange {| line := 3; character := 0 |} cursor;
              commitCharacters := Some [] |}]
          true = CompletionList items' true
      ∧ List.length items' = List.length items
      ∧ Forall2
          (fun item item' =>
             ∃ rangeStart rangeEnd,
               itemRange item = PlainRange rangeStart rangeEnd
               ∧ label item' = label item
               ∧ itemRange item' = itemRange item
               ∧ commitCharacters item' = Some []
               ∧ filterText item'
                 = (if JS.truthy (Some (sampleGetText rangeStart cursor))
                    then Some (sampleGetText rangeStart cursor +:+ "_"
                               +:+ default "undefined" (filterText item))
                    else filterText item)
               ∧ match insertText item with
                 | SnippetString v =>
                     insertText item' = SnippetString (rewriteSnippet v)
                     ∧ String.length (rewriteSnippet v) = String.length v
                 | other => insertText item' = other
                 end)
          items items'.
Proof.
  assert (Hrun : provideCompletionItem sampleGetText true cursor (ItemArray [snippetItem])
                 = Some (CompletionList
                           [{| label := "setCount:";
                               filterText := Some "se_undefined";
                               insertText := SnippetString "(int)setCount:(count)";
                               itemRange := PlainRange {| line := 3; character := 0 |} cursor;
                               commitCharacters := Some [] |}]
                           true)) by (vm_compute; reflexivity).
  split; [exact Hrun|].
  exact (completion_items_kept_and_marked sampleGetText cursor _ _ Hrun).
Defined.

Lemma completion_fails_without_range_witness :
  provideCompletionItem sampleGetText true cursor
    (CompletionList [snippetItem; rangelessItem] false) = None
  ∧ provideCompletionItem sampleGetText false cursor
      (CompletionList [snippetItem; rangelessItem] false)
    = Some (CompletionList [snippetItem; rangelessItem] false).
Proof.
  split.
  - apply (proj1 (proj2 (completion_fails_without_range sampleGetText cursor))
             _ [snippetItem; rangelessItem] rangelessItem).
    + reflexivity.
    + right. left.
    + discriminate.
  - apply (proj2 (proj2 (completion_fails_without_range sampleGetText cursor))).
Defined.

(** ** Only configured entries are returned *)

Lemma filter_sublist_mono {A : Type} (P : A → Prop) `{!∀ x, Decision (P x)}
    (l1 l2 : list A) :
  l1 `sublist_of` l2 → filter P l1 `sublist_of` filter P l2.
Proof.
  induction 1 as [|x l1 l2 Hsub IH|x l1 l2 Hsub IH]; [constructor| |].
  - rewrite !filter_cons. destruct (decide (P x)); [now apply sublist_skip|assumption].
  - rewrite filter_cons. destruct (decide (P x)); [now apply sublist_cons|assumption].
Qed.

(** X22.  In the trie built from a document, whatever a lookup returns is
    an entry of that document, key and value, and the segments of the key
    are a subsequence of the segments of the query; so a key with more
    empty segments than the query (a key with a trailing slash, for a plain
    absolute path) is never returned. *)
Theorem lookup_returns_document_entry
    (document : list (string * string)) (filePath prefixPath replacePath : string) :
  getPrefixPathAndReplacePathWithPath (insertEntries document newTrieNode) filePath
    = Some (prefixPath, replacePath) →
  (prefixPath, replacePath) ∈ document
  ∧ JS.split "/" prefixPath `sublist_of` JS.split "/" filePath
  ∧ (List.length (filter (fun seg => seg = EmptyString) (JS.split "/" prefixPath))
     ≤ List.length (filter (fun seg => seg = EmptyString) (JS.split "/" filePath)))%nat.
Proof.
  unfold getPrefixPathAndReplacePathWithPath.
  destruct (walk _ _ _) as [acc node] eqn:Hwalk.
  apply walk_consumed in Hwalk as (consumed & -> & Hd & Hsub).
  rewrite app_nil_l.
  destruct (value node) as [v|] eqn:Hv; [|discriminate].
  destruct (JS.truthy (Some v)); [|discriminate].
  intros H. injection H as <- <-.
  assert (Hval : valueAt consumed (insertEntries document newTrieNode) = Some v).
  { unfold valueAt. now rewrite Hd. }
  rewrite valueAt_insertEntries, valueAt_newTrieNode in Hval.
  apply valueAfter_Some in Hval as [Hval|(key & Hin & Hkey)]; [discriminate|].
  assert (Hjoin : JS.join "/" consumed = key) by (rewrite <- Hkey; apply join_split).
  rewrite Hjoin, Hkey. repeat split; try assumption.
  apply sublist_length. now apply filter_sublist_mono.
Qed.

Lemma lookup_returns_document_entry_witness :
  ("/sandbox/src", "/home/dev/project") ∈ siblingsDocument
  ∧ JS.split "/" "/sandbox/src" `sublist_of` JS.split "/" "/sandbox/build/src/foo.h"
  ∧ (List.length (filter (fun seg => seg = EmptyString) (JS.split "/" "/sandbox/src"))
     ≤ List.length (filter (fun seg => seg = EmptyString)
                      (JS.split "/" "/sandbox/build/src/foo.h")))%nat.
Proof.
  apply (lookup_returns_document_entry siblingsDocument "/sandbox/build/src/foo.h").
  vm_compute. reflexivity.
Defined.

Example trailing_slash_key_does_not_match :
  getPrefixPathAndReplacePathWithPath
    (insertEntries [("/sandbox/src/", "/home/dev/project/")] newTrieNode)
    "/sandbox/src/foo/bar.h" = None
  ∧ getPrefixPathAndReplacePathWithPath
      (insertEntries [("/sandbox/src/", "/home/dev/project/")] newTrieNode)
      "/sandbox/src//foo/bar.h" = Some ("/sandbox/src/", "/home/dev/project/").
Proof. split; vm_compute; reflexivity. Qed.
